(** * Streaming spouts: Kafka, RabbitMQ, Redis Pub/Sub, Redis Streams,
      Kinesis, ZeroMQ and the REST poller

    A shallow embedding of the [listen] methods of the spouts together
    with the two collaborators every spout talks to: the state store
    ([self.state.get_state] / [self.state.set_state]) and the sink
    ([self.output.save]).

    Python exceptions are values of [exn]; a statement block is a
    computation in the monad [M], which threads the [World] (store and
    sink) and either returns or raises.  A [while True] loop is driven by
    the finite list of answers the transport gives to the successive
    fetches; when the list is used up the loop is [Blocked] in its next
    fetch. *)

From Stdlib Require Import ZArith String Ascii List Lia.
From stdpp Require Import base option list gmap strings.

Open Scope string_scope.
Open Scope Z_scope.
Open Scope list_scope.

(** ** Exceptions *)

Inductive exn : Type :=
| JSONDecodeError                 (* json.loads on a malformed payload *)
| IndexError                      (* list index out of range *)
| TypeError
| AttributeError
| UnboundLocalError               (* a local read before it was assigned *)
| ValueError (msg : string)
| HTTPError (status : Z)          (* requests.exceptions.HTTPError *)
| RequestException (what : string)(* any other requests.exceptions.* *)
| TransportError (what : string)  (* raised by a client library: broken
                                     connection, auth rejection, broker
                                     unreachable *)
| SinkError (reason : string).    (* raised by output.save *)

Inductive result (A : Type) : Type :=
| Ok (a : A)
| Raise (e : exn).
Arguments Ok {A} a.
Arguments Raise {A} e.

(** ** The persisted state

    The dictionary kept under the spout's id.  [last_id] is [None] when
    the key is absent, [Some None] when it holds Python's [None]. *)

Record OutcomeState : Type := mkState {
  success_count : Z;
  failure_count : Z;
  last_id : option (option string)
}.

Definition incr_success (s : OutcomeState) : OutcomeState :=
  mkState (success_count s + 1) (failure_count s) (last_id s).

Definition incr_failure (s : OutcomeState) : OutcomeState :=
  mkState (success_count s) (failure_count s + 1) (last_id s).

Definition set_last_id (v : option string) (s : OutcomeState) : OutcomeState :=
  mkState (success_count s) (failure_count s) (Some v).

(** [{"success_count": 0, "failure_count": 0}] *)
Definition default_state : OutcomeState := mkState 0 0 None.

(** [x or d] on an optional dictionary: a stored state always has the two
    counter keys, hence is truthy. *)
Definition py_or (x : option OutcomeState) (d : OutcomeState) : OutcomeState :=
  match x with
  | Some s => s
  | None => d
  end.

(** One [set_state] call: the key, what the store held under it before,
    and the dictionary written. *)
Record write : Type := mkWrite {
  w_key : string;
  w_before : option OutcomeState;
  w_after : OutcomeState
}.

(** ** The world of a spout: state store and sink, [E] the type of what the
    spout hands to [output.save].

    The store answers every [get_state] and [set_state]; it holds values,
    so what a spout does to a dictionary after writing it is not seen by
    the store until the next [set_state]. The sink answers each [save] by
    accepting the envelope or by raising. *)

Record World (E : Type) : Type := mkWorld {
  store : gmap string OutcomeState;
  writes : list write;             (* history of set_state, oldest first *)
  saved : list E;                  (* what the sink accepted, oldest first *)
  sink : list (option exn)         (* the sink's answers to the next save
                                      calls; [None] or exhausted: accepted *)
}.
Arguments mkWorld {E}.
Arguments store {E}.
Arguments writes {E}.
Arguments saved {E}.
Arguments sink {E}.

Definition M (E A : Type) : Type := World E → result A * World E.

Definition ret {E A} (a : A) : M E A := λ w, (Ok a, w).

Definition raise {E A} (e : exn) : M E A := λ w, (Raise e, w).

Definition bind {E A B} (m : M E A) (k : A → M E B) : M E B :=
  λ w, match m w with
       | (Ok a, w') => k a w'
       | (Raise e, w') => (Raise e, w')
       end.

Notation "'do' x <- m ; k" := (bind m (λ x, k))
  (at level 10, x name, m at level 100, k at level 200).
Notation "m ;; k" := (bind m (λ _, k))
  (at level 100, k at level 200, right associativity).

(** [try: body except Exception: handler]: what [body] did to the world
    before raising stays done. *)
Definition try_except {E A} (body : M E A) (handler : exn → M E A) : M E A :=
  λ w, match body w with
       | (Ok a, w') => (Ok a, w')
       | (Raise e, w') => handler e w'
       end.

(** Lift the outcome of a call into the environment. *)
Definition lift {E A} (r : result A) : M E A := λ w, (r, w).

Definition get_state {E} (id : string) : M E (option OutcomeState) :=
  λ w, (Ok (store w !! id), w).

Definition set_state {E} (id : string) (s : OutcomeState) : M E unit :=
  λ w, (Ok tt,
        mkWorld (<[id := s]> (store w))
                (writes w ++ [mkWrite id (store w !! id) s])
                (saved w) (sink w)).

Definition save {E} (e : E) : M E unit :=
  λ w, match sink w with
       | Some err :: rest => (Raise err, mkWorld (store w) (writes w) (saved w) rest)
       | None :: rest => (Ok tt, mkWorld (store w) (writes w) (saved w ++ [e]) rest)
       | [] => (Ok tt, mkWorld (store w) (writes w) (saved w ++ [e]) [])
       end.

(** [self.log.info] / [self.log.error]: no effect on store or sink. *)
Definition log {E} (msg : string) : M E unit := ret tt.

(** The block every spout repeats after a successful save:
[[
    current_state = self.state.get_state(self.id) or {"success_count": 0, "failure_count": 0}
    current_state["success_count"] += 1
    self.state.set_state(self.id, current_state)
]] *)
Definition count_success {E} (id : string) : M E unit :=
  do current_state <- get_state id;
  set_state id (incr_success (py_or current_state default_state)).

(** The same block with ["failure_count"]. *)
Definition count_failure {E} (id : string) : M E unit :=
  do current_state <- get_state id;
  set_state id (incr_failure (py_or current_state default_state)).

(** [json.loads], the decoder [json_loads] being a parameter of every
    spout: [None] is a payload that does not decode. *)
Definition loads {E V} (json_loads : string → option V) (s : string) : M E V :=
  match json_loads s with
  | Some d => ret d
  | None => raise JSONDecodeError
  end.

(** ** Strings as the spouts use them *)

(** [s.split(sep, 1)]: the text before the first [sep] and, when there is
    a [sep], the text after it. *)
Fixpoint split_once (sep : ascii) (s : string) : string * option string :=
  match s with
  | EmptyString => (EmptyString, None)
  | String c r =>
      if Ascii.eqb c sep then (EmptyString, Some r)
      else let '(a, b) := split_once sep r in (String c a, b)
  end.

Definition lower_ascii (c : ascii) : ascii :=
  let n := N_of_ascii c in
  if (65 <=? n)%N && (n <=? 90)%N then ascii_of_N (n + 32) else c.

(** [s.lower()] on ASCII text. *)
Fixpoint lower (s : string) : string :=
  match s with
  | EmptyString => EmptyString
  | String c r => String (lower_ascii c) (lower r)
  end.

Definition digit (c : ascii) : option Z :=
  let n := Z.of_N (N_of_ascii c) in
  if ((48 <=? n) && (n <=? 57))%Z then Some (n - 48) else None.

Fixpoint digits (acc : Z) (s : string) : option Z :=
  match s with
  | EmptyString => Some acc
  | String c r =>
      match digit c with
      | Some d => digits (10 * acc + d) r
      | None => None
      end
  end.

(** A non-empty run of decimal digits. *)
Definition decimal (s : string) : option Z :=
  match s with
  | EmptyString => None
  | _ => digits 0 s
  end.

(** How a run of [listen] stands when the transport's answers are used up. *)
Inductive outcome : Type :=
| Blocked                 (* inside the loop, waiting in the next fetch *)
| Returned                (* listen returned normally *)
| Raised (e : exn).       (* the exception left listen *)

(** [while True: body(next answer)]; returns the answers not consumed. *)
Fixpoint while_true {E Ev} (body : Ev → M E unit) (evs : list Ev) (w : World E)
  : outcome * list Ev * World E :=
  match evs with
  | [] => (Blocked, [], w)
  | ev :: rest =>
      match body ev w with
      | (Ok _, w') => while_true body rest w'
      | (Raise e, w') => (Raised e, rest, w')
      end
  end.

(** A fresh run: nothing written or saved yet. *)
Definition world0 {E} (st : gmap string OutcomeState) (replies : list (option exn)) : World E :=
  mkWorld st [] [] replies.

(** After [try: <loop> except Exception: <handler>] around a whole loop:
    the handler runs once and [listen] falls off its end. *)
Definition except_around_loop {E Ev} (handler : exn → M E unit)
    (r : outcome * list Ev * World E) : outcome * list Ev * World E :=
  match r with
  | (Raised e, rest, w) =>
      match handler e w with
      | (Ok _, w') => (Returned, rest, w')
      | (Raise e', w') => (Raised e', rest, w')
      end
  | _ => r
  end.

(** ** Kafka (geniusrise_listeners/kafka.py) *)

Module Kafka.
Section WithJson.
Context {V : Type} (json_loads : string → option V).
Context (id : string).                      (* self.id *)

(** What [consumer.poll(1.0)] answers. *)
Inductive poll_result : Type :=
| NoMessage                                 (* None: timeout *)
| ErrorMessage (code : Z) (partition : Z)   (* message.error() is set *)
| Message (value : option string)           (* message.value(), maybe None *)
| PollRaises (e : exn).

(** [KafkaError._PARTITION_EOF] *)
Definition _PARTITION_EOF : Z := -191.

(** [json.loads(message.value())]; [json.loads(None)] is a TypeError. *)
Definition loads_value (value : option string) : M V V :=
  match value with
  | Some s => loads json_loads s
  | None => raise TypeError
  end.

(** One turn of the [while True] of [listen]; the decoded payload itself
    is what goes to the sink. *)
Definition iteration (p : poll_result) : M V unit :=
  try_except
    (match p with
     | PollRaises e => raise e
     | NoMessage => ret tt                               (* continue *)
     | ErrorMessage code partition =>
         if Z.eqb code _PARTITION_EOF
         then log "Reached end of topic"
         else log "Error while consuming message"
     | Message value =>
         do data <- loads_value value;
         save data;;
         count_success id
     end)
    (λ e, log "Error processing Kafka message";; count_failure id).

(** [listen]: [Consumer(config)] and [subscribe] run outside any [try];
    [subscribed] is what they answer. *)
Definition listen (subscribed : result unit) (polls : list poll_result)
    (w : World V) : outcome * list poll_result * World V :=
  match subscribed with
  | Raise e => (Raised e, polls, w)
  | Ok _ => while_true iteration polls w
  end.

End WithJson.
End Kafka.

(** ** RabbitMQ (streaming_spouts/amqp.py) *)

Module RabbitMQ.
Section WithJson.
Context {V : Type} (json_loads : string → option V).
Context (id : string).

Record Envelope : Type := mkEnvelope {
  data : V;
  method : string;
  properties : list (string * string)
}.

(** One delivery: [body], [method.routing_key], [properties.headers]. *)
Record delivery : Type := mkDelivery {
  body : string;
  routing_key : string;
  headers : option (list (string * string))
}.

(** [dict(properties.headers)]: [dict(None)] is a TypeError. *)
Definition dict_of (h : option (list (string * string)))
  : M Envelope (list (string * string)) :=
  match h with
  | Some l => ret l
  | None => raise TypeError
  end.

Definition _callback (d : delivery) : M Envelope unit :=
  try_except
    (do data <- loads json_loads (body d);
     do props <- dict_of (headers d);
     save (mkEnvelope data (routing_key d) props);;
     count_success id)
    (λ e, log "Error processing RabbitMQ message";; count_failure id).

(** What happens inside [channel.start_consuming()]: a delivery is
    dispatched to the callback, or the call raises. *)
Inductive consume_event : Type :=
| Deliver (d : delivery)
| ConsumeRaises (e : exn).

Definition dispatch (ev : consume_event) : M Envelope unit :=
  match ev with
  | Deliver d => _callback d
  | ConsumeRaises e => raise e
  end.

(** [listen]: connecting, declaring, consuming are all inside one
    [try ... except Exception]. [connected] is the answer of the calls
    before [start_consuming]. *)
Definition listen (connected : result unit) (evs : list consume_event)
    (w : World Envelope) : outcome * list consume_event * World Envelope :=
  except_around_loop
    (λ e, log "Error listening to RabbitMQ";; count_failure id)
    (match connected with
     | Raise e => (Raised e, evs, w)
     | Ok _ => while_true dispatch evs w
     end).

End WithJson.
End RabbitMQ.

(** ** Redis Pub/Sub (streaming_spouts/redis_pubsub.py) *)

Module RedisPubSub.
Section WithJson.
Context {V : Type} (json_loads : string → option V).
Context (id : string).

Record Envelope : Type := mkEnvelope {
  data : V;
  channel : string
}.

(** What the generator [pubsub.listen()] does next: yields a message
    dictionary ([message["type"]], [message["data"]]) or raises. *)
Inductive item : Type :=
| Yields (type_ : string) (data_ : string)
| ListenRaises (e : exn).

(** The body of the [for]. *)
Definition handle (channel : string) (type_ data_ : string) : M Envelope unit :=
  try_except
    (if String.eqb type_ "message" then
       do data <- loads json_loads data_;
       save (mkEnvelope data channel);;
       count_success id
     else ret tt)
    (λ e, log "Error processing Redis Pub/Sub message";; count_failure id).

(** Advancing the generator is part of the [for] statement, not of the
    [try] inside it. *)
Definition step (channel : string) (it : item) : M Envelope unit :=
  match it with
  | Yields type_ data_ => handle channel type_ data_
  | ListenRaises e => raise e
  end.

Definition listen (channel : string) (subscribed : result unit) (items : list item)
    (w : World Envelope) : outcome * list item * World Envelope :=
  match subscribed with
  | Raise e => (Raised e, items, w)
  | Ok _ => while_true (step channel) items w
  end.

End WithJson.
End RedisPubSub.

(** ** Redis Streams (streaming_spouts/redis_streams.py) *)

Module RedisStream.

(** *** The transport: stream entry ids and XREAD

    An entry id is the text [ms-seq] (or [ms], meaning [ms-0]); Redis
    orders ids by [ms], then [seq]. *)

Definition stream_id : Type := Z * Z.

Definition parse_id (s : string) : option stream_id :=
  match split_once "-" s with
  | (ms, None) =>
      match decimal ms with
      | Some a => Some (a, 0)
      | None => None
      end
  | (ms, Some seq) =>
      match decimal ms, decimal seq with
      | Some a, Some b => Some (a, b)
      | _, _ => None
      end
  end.

Definition id_ltb (a b : stream_id) : bool :=
  ((fst a <? fst b) || ((fst a =? fst b) && (snd a <? snd b)))%Z.

Definition id_leb (a b : stream_id) : bool := negb (id_ltb b a).

(** The transport's ordering of positions, on the text of the ids. *)
Definition cursor_le (a b : string) : Prop :=
  match parse_id a, parse_id b with
  | Some x, Some y => id_leb x y = true
  | _, _ => False
  end.

Definition cursor_lt (a b : string) : Prop :=
  match parse_id a, parse_id b with
  | Some x, Some y => id_ltb x y = true
  | _, _ => False
  end.

Definition fields : Type := list (string * string).
Definition entry : Type := string * fields.           (* (msg_id, fields) *)
Definition reply : Type := list (string * list entry).

Inductive xread_result : Type :=
| Reply (r : reply)
| XreadRaises (e : exn).

(** A value of the dictionary given to [xread]. *)
Inductive xval : Type :=
| XStr (s : string)
| XInt (n : Z).

(** [d[k] = v] on an insertion-ordered dictionary. *)
Fixpoint dict_set (k : string) (v : xval) (d : list (string * xval))
  : list (string * xval) :=
  match d with
  | [] => [(k, v)]
  | (k', v') :: r =>
      if String.eqb k' k then (k', v) :: r else (k', v') :: dict_set k v r
  end.

(** The one positional argument [_listen] gives to [self.redis.xread]:
    [{stream_key: last_id, "count": 10, "block": 1000}]. *)
Definition xread_streams (stream_key last_id : string) : list (string * xval) :=
  dict_set "block" (XInt 1000)
    (dict_set "count" (XInt 10)
       (dict_set stream_key (XStr last_id) [])).

(** XREAD as the server answers it, for a database snapshot [db]
    (stream name to its entries, oldest first): [streams] maps each stream
    to read to the id after which to read; the reply lists, in the order
    asked, the streams that have newer entries, each with those entries.
    The id ["$"] stands for the stream's end, after which a read that does
    not wait finds nothing; an id that is no id is refused. *)
Inductive position : Type :=
| After (i : stream_id)
| AtEnd
| Invalid.

Definition position_of (v : xval) : position :=
  match v with
  | XInt n => After (n, 0)
  | XStr s =>
      if String.eqb s "$" then AtEnd
      else match parse_id s with
           | Some i => After i
           | None => Invalid
           end
  end.

Definition entries_after (p : position) (es : list entry) : list entry :=
  match p with
  | After i =>
      List.filter (λ e : entry,
                     match parse_id (fst e) with
                     | Some j => id_ltb i j
                     | None => false
                     end) es
  | _ => []
  end.

Definition is_invalid (p : position) : bool :=
  match p with
  | Invalid => true
  | _ => false
  end.

Definition read_one (db : gmap string (list entry)) (kv : string * xval)
  : string * list entry :=
  (fst kv, entries_after (position_of (snd kv)) (default [] (db !! fst kv))).

Definition has_entries (x : string * list entry) : bool :=
  match snd x with
  | [] => false
  | _ => true
  end.

Definition redis_xread (db : gmap string (list entry))
    (streams : list (string * xval)) : xread_result :=
  if existsb (λ kv, is_invalid (position_of (snd kv))) streams
  then XreadRaises (TransportError "ResponseError: Invalid stream ID")
  else Reply (List.filter has_entries (List.map (read_one db) streams)).

(** *** The spout *)

Section WithId.
Context (id : string).

Record Envelope : Type := mkEnvelope {
  data : fields;
  stream_key_ : string;
  message_id : string
}.

(** The two locals the loop keeps across turns. *)
Record Locals : Type := mkLocals {
  l_last_id : string;
  l_current_state : OutcomeState
}.

(** [{"success_count": 0, "failure_count": 0, "last_id": last_id}] *)
Definition default_with (last_id : option string) : OutcomeState :=
  mkState 0 0 (Some last_id).

(** The conditional expression that picks the id to read after first:
[[
    current_state["last_id"]
    if "last_id" in current_state and last_id is None and current_state["last_id"] is not None
    else "0" if last_id is None else last_id
]] *)
Definition start_id (current_state : OutcomeState) (arg : option string) : string :=
  match last_id current_state with
  | Some (Some persisted) =>          (* key present and its value not None *)
      match arg with
      | None => persisted
      | Some given => given
      end
  | _ =>
      match arg with
      | None => "0"
      | Some given => given
      end
  end.

(** The block after a successful save, which also records the id. *)
Definition account (last_id : string) : M Envelope OutcomeState :=
  do stored <- get_state id;
  let current_state :=
    set_last_id (Some last_id)
      (incr_success (py_or stored (default_with (Some last_id)))) in
  set_state id current_state;;
  ret current_state.

(** The two nested [for] loops over one reply, entry by entry; the locals
    are returned as they stand when the body ends or raises. *)
Fixpoint process (stream_key : string) (messages : list entry) (l : Locals)
    (w : World Envelope) : result unit * Locals * World Envelope :=
  match messages with
  | [] => (Ok tt, l, w)
  | (msg_id, flds) :: rest =>
      let l1 := mkLocals msg_id (l_current_state l) in         (* last_id = msg_id *)
      match (save (mkEnvelope flds stream_key msg_id);; account msg_id) w with
      | (Ok current_state, w') => process stream_key rest (mkLocals msg_id current_state) w'
      | (Raise e, w') => (Raise e, l1, w')
      end
  end.

(** The handler of the [try] inside the loop: it counts on the local
    [current_state], without reading the store again. *)
Definition inner_handler (l : Locals) (w : World Envelope)
  : result unit * Locals * World Envelope :=
  let current_state := incr_failure (l_current_state l) in
  let '(r, w') := set_state id current_state w in
  (r, mkLocals (l_last_id l) current_state, w').

(** One turn of the [while True]; [xread] is how the transport answers the
    call, given its argument. *)
Definition iteration (stream_key : string)
    (xread : list (string * xval) → xread_result) (l : Locals)
    (w : World Envelope) : result unit * Locals * World Envelope :=
  match xread (xread_streams stream_key (l_last_id l)) with
  | XreadRaises e => inner_handler l w
  | Reply result_ =>
      match process stream_key (concat (List.map snd result_)) l w with
      | (Ok _, l', w') => (Ok tt, l', w')
      | (Raise e, l', w') => inner_handler l' w'
      end
  end.

Fixpoint loop (stream_key : string)
    (xreads : list (list (string * xval) → xread_result)) (l : Locals)
    (w : World Envelope) : outcome * Locals * World Envelope :=
  match xreads with
  | [] => (Blocked, l, w)
  | x :: rest =>
      match iteration stream_key x l w with
      | (Ok _, l', w') => loop stream_key rest l' w'
      | (Raise e, l', w') => (Raised e, l', w')
      end
  end.

(** The locals on entry to the loop. *)
Definition initial_locals (arg : option string) (w : World Envelope) : Locals :=
  let current_state := py_or (store w !! id) (default_with arg) in
  mkLocals (start_id current_state arg) current_state.

(** The handler of the [try] around the whole body of [_listen]. *)
Definition outer_handler (last_id : option string) : M Envelope unit :=
  log "Error processing Redis Stream message";;
  do stored <- get_state id;
  set_state id (incr_failure (py_or stored (default_with last_id))).

(** [_listen]; [client] is the answer of [redis.StrictRedis(...)]. The
    locals at the end are returned next to the world. *)
Definition _listen (stream_key : string) (arg : option string)
    (client : result unit)
    (xreads : list (list (string * xval) → xread_result))
    (w : World Envelope) : outcome * option Locals * World Envelope :=
  match client with
  | Raise e =>
      match outer_handler arg w with
      | (Ok _, w') => (Returned, None, w')
      | (Raise e', w') => (Raised e', None, w')
      end
  | Ok _ =>
      match loop stream_key xreads (initial_locals arg w) w with
      | (Raised e, l, w') =>
          match outer_handler (Some (l_last_id l)) w' with
          | (Ok _, w'') => (Returned, Some l, w'')
          | (Raise e', w'') => (Raised e', Some l, w'')
          end
      | (o, l, w') => (o, Some l, w')
      end
  end.

(** [listen] never passes [last_id]. *)
Definition listen (stream_key : string) (client : result unit)
    (xreads : list (list (string * xval) → xread_result))
    (w : World Envelope) : outcome * option Locals * World Envelope :=
  _listen stream_key None client xreads w.

End WithId.
End RedisStream.

(** ** Kinesis (streaming_spouts/kinesis.py) *)

Module Kinesis.
Section WithJson.
Context {V : Type} (json_loads : string → option V).
Context (id : string).

Record Envelope : Type := mkEnvelope {
  data : V;
  sequence_number : string
}.

Record record : Type := mkRecord {
  Data : string;
  SequenceNumber : string
}.

Record response : Type := mkResponse {
  Records : list record;
  NextShardIterator : option string      (* null once the shard is closed *)
}.

Inductive get_records_result : Type :=
| Response (r : response)
| GetRecordsRaises (e : exn).

Definition call (r : get_records_result) : M Envelope response :=
  match r with
  | Response x => ret x
  | GetRecordsRaises e => raise e
  end.

(** [for record in response["Records"]: ...] *)
Fixpoint process (records : list record) : M Envelope unit :=
  match records with
  | [] => ret tt
  | r :: rest =>
      (do data <- loads json_loads (Data r);
       save (mkEnvelope data (SequenceNumber r));;
       count_success id);;
      process rest
  end.

(** One turn of the [while True]: [get_records] is the transport's answer
    to the call with the given iterator; the value is the local
    [shard_iterator] after the turn. *)
Definition iteration (get_records : option string → get_records_result)
    (shard_iterator : option string) : M Envelope (option string) :=
  try_except
    (do response_ <- call (get_records shard_iterator);
     process (Records response_);;
     ret (NextShardIterator response_))
    (λ e, log "Error processing Kinesis record";;
          count_failure id;;
          ret shard_iterator).

Fixpoint loop (calls : list (option string → get_records_result))
    (shard_iterator : option string) (w : World Envelope)
  : outcome * option string * World Envelope :=
  match calls with
  | [] => (Blocked, shard_iterator, w)
  | c :: rest =>
      match iteration c shard_iterator w with
      | (Ok it, w') => loop rest it w'
      | (Raise e, w') => (Raised e, shard_iterator, w')
      end
  end.

(** [listen]: [latest] is the answer of [get_shard_iterator(...,
    ShardIteratorType="LATEST")], called outside any [try]. Returns the
    local [shard_iterator] next to the world. *)
Definition listen (latest : result string)
    (calls : list (option string → get_records_result)) (w : World Envelope)
  : outcome * option string * World Envelope :=
  match latest with
  | Raise e => (Raised e, None, w)
  | Ok it => loop calls (Some it) w
  end.

End WithJson.
End Kinesis.

(** ** ZeroMQ (streaming_spouts/zeromq.py) *)

Module ZeroMQ.
Section WithJson.
Context {V : Type} (json_loads : string → option V).
Context (id : string).

Record Envelope : Type := mkEnvelope {
  data : V + string;          (* decoded, or the message itself *)
  topic : string;
  syntax : string
}.

Inductive recv_result : Type :=
| Received (message : string)
| RecvRaises (e : exn).

(** [message.split(" ", 1)[1]] *)
Definition after_topic (message : string) : M Envelope string :=
  match snd (split_once " " message) with
  | Some rest => ret rest
  | None => raise IndexError
  end.

(** The body of the [while True], which has no [try] of its own. *)
Definition iteration (topic syntax : string) (r : recv_result) : M Envelope unit :=
  do message <- match r with
                | Received m => ret m
                | RecvRaises e => raise e
                end;
  do data <- (if String.eqb syntax "json"
              then do rest <- after_topic message;
                   do d <- loads json_loads rest;
                   ret (inl d)
              else ret (inr message));
  save (mkEnvelope data topic syntax);;
  count_success id.

Definition show (socket_type : option string) : string :=
  match socket_type with
  | Some s => s
  | None => "None"
  end.

(** [listen]: [connected] is the answer of [context.socket], [connect]
    and [setsockopt_string]. *)
Definition listen (topic syntax : string) (socket_type : option string)
    (connected : result unit) (recvs : list recv_result) (w : World Envelope)
  : outcome * list recv_result * World Envelope :=
  if decide (socket_type = Some "SUB") then
    match connected with
    | Raise e => (Raised e, recvs, w)
    | Ok _ =>
        except_around_loop
          (λ e, log "Error processing ZeroMQ message";; count_failure id)
          (while_true (iteration topic syntax) recvs w)
    end
  else (Raised (ValueError ("Unsupported socket type: " +:+ show socket_type)), recvs, w).

End WithJson.
End ZeroMQ.

(** ** REST API poll (streaming_spouts/http_polling.py) *)

Module RESTAPIPoll.
Section WithId.
Context {V : Type}.
Context (id : string).

Definition dict : Type := list (string * string).

Record Envelope : Type := mkEnvelope {
  data : V;
  url : string;
  method : string;
  headers : option dict;
  params : option dict
}.

Record response : Type := mkResponse {
  status_code : Z;
  json : result V               (* what response.json() gives or raises *)
}.

Inductive request_result : Type :=
| Responds (r : response)
| RequestRaises (e : exn).

(** The functions of the [requests] module that take [(url, **kwargs)]. *)
Definition requests_functions : list string :=
  ["get"; "options"; "head"; "post"; "put"; "patch"; "delete"].

(** [getattr(requests, name)(url, json=body, headers=headers, params=params)] *)
Definition request (name : string) (answer : request_result) : M Envelope response :=
  if existsb (String.eqb name) requests_functions then
    match answer with
    | Responds r => ret r
    | RequestRaises e => raise e
    end
  else raise AttributeError.

(** [response.raise_for_status()] *)
Definition raise_for_status (r : response) : M Envelope unit :=
  if ((400 <=? status_code r) && (status_code r <? 600))%Z
  then raise (HTTPError (status_code r))
  else ret tt.

(** The three [except] clauses, tried in order. The message of the first
    reads [response.status_code]; [response_] is the local [response], if
    the request got as far as assigning it. *)
Definition handler (response_ : option response) (e : exn) : M Envelope unit :=
  match e with
  | HTTPError _ =>
      match response_ with
      | Some _ => log "HTTP error when fetching data"
      | None => raise UnboundLocalError
      end
  | RequestException _ => log "Error fetching data from REST API"
  | _ => log "Unexpected error";; count_failure id
  end.

(** [poll_api]: one [try] around the request and what follows it. *)
Definition poll_api (url method : string) (headers params : option dict)
    (answer : request_result) : M Envelope unit :=
  λ w, match request (lower method) answer w with
       | (Raise e, w1) => handler None e w1
       | (Ok response_, w1) =>
           try_except
             (raise_for_status response_;;
              do data <- lift (json response_);
              save (mkEnvelope data url method headers params);;
              count_success id)
             (handler (Some response_)) w1
       end.

(** [time.sleep(interval)] *)
Definition sleep (interval : Z) : M Envelope unit :=
  if (interval <? 0)%Z then raise (ValueError "sleep length must be non-negative")
  else ret tt.

Definition listen (url method : string) (interval : Z) (headers params : option dict)
    (answers : list request_result) (w : World Envelope)
  : outcome * list request_result * World Envelope :=
  while_true (λ a, poll_api url method headers params a;; sleep interval) answers w.

End WithId.
End RESTAPIPoll.

(** ** A decoder to run the spouts on examples

    The integer literals of JSON: [int_loads] agrees with [json.loads] on
    them and on text that is no JSON at all, the only payloads the
    examples use. *)
Definition int_loads (s : string) : option Z :=
  match s with
  | String "-" (String "0" (String _ _)) => None
  | String "-" r => option_map Z.opp (decimal r)
  | String "0" (String _ _) => None
  | _ => decimal s
  end.

(** ** Vocabulary of the properties *)

(** The state a spout reads before it counts: what is stored under its
    id, or the default. *)
Definition counters_of {E} (id : string) (w : World E) : OutcomeState :=
  py_or (store w !! id) default_state.

(** The world after the failure block, after the success block, after the
    sink took [e], after the sink refused a save. *)
Definition after_failure {E} (id : string) (w : World E) : World E :=
  snd (count_failure id w).

Definition after_success {E} (id : string) (w : World E) : World E :=
  snd (count_success id w).

Definition accepted {E} (e : E) (w : World E) : World E :=
  mkWorld (store w) (writes w) (saved w ++ [e]) (tail (sink w)).

Definition rejected {E} (w : World E) : World E :=
  mkWorld (store w) (writes w) (saved w) (tail (sink w)).

(** The sink takes every save still to come. *)
Definition all_accept (replies : list (option exn)) : bool :=
  forallb (λ r : option exn, match r with None => true | Some _ => false end) replies.

Definition accepts_all {E} (w : World E) : bool := all_accept (sink w).

(** A payload that [json.loads] decodes. *)
Definition decodes {V} (json_loads : string → option V) (s : string) : bool :=
  match json_loads s with
  | Some _ => true
  | None => false
  end.

Definition malformed {V} (json_loads : string → option V) (payloads : list string)
  : list string :=
  List.filter (λ s, negb (decodes json_loads s)) payloads.

(** A write that adds one to exactly one counter of what was stored (or of
    the default when nothing was). *)
Definition counts_one (wr : write) : Prop :=
  let b := py_or (w_before wr) default_state in
  (success_count (w_after wr) = success_count b + 1
   ∧ failure_count (w_after wr) = failure_count b)
  ∨ (success_count (w_after wr) = success_count b
     ∧ failure_count (w_after wr) = failure_count b + 1).

(** [w'] comes from [w] by writes under [id] that each count one, and the
    counters read under [id] did not go down. *)
Definition extends {E} (id : string) (w w' : World E) : Prop :=
  (∃ new, writes w' = writes w ++ new
          ∧ Forall (λ wr, w_key wr = id ∧ counts_one wr) new)
  ∧ success_count (counters_of id w) ≤ success_count (counters_of id w')
  ∧ failure_count (counters_of id w) ≤ failure_count (counters_of id w').

(** A computation all of whose runs extend the world they start in. *)
Definition sound {E A} (id : string) (m : M E A) : Prop :=
  ∀ w, extends id w (snd (m w)).

(** Redis Streams: the counters of the local [current_state] are those
    read under the id. *)
Definition agrees (id : string) (l : RedisStream.Locals)
    (w : World RedisStream.Envelope) : Prop :=
  success_count (RedisStream.l_current_state l) = success_count (counters_of id w)
  ∧ failure_count (RedisStream.l_current_state l) = failure_count (counters_of id w).

(** Kafka: a fetch with nothing to process, the timeout or the
    end-of-partition notice. *)
Definition is_empty_fetch (p : Kafka.poll_result) : bool :=
  match p with
  | Kafka.NoMessage => true
  | Kafka.ErrorMessage code _ => Z.eqb code Kafka._PARTITION_EOF
  | _ => false
  end.

(** Redis Streams: the starting position in the words of its description:
    the argument when given, else the persisted id when there is one, else
    ["0"]. *)
Definition start_position (arg : option string) (persisted : option OutcomeState)
  : string :=
  match arg with
  | Some given => given
  | None =>
      match persisted with
      | Some s =>
          match last_id s with
          | Some (Some p) => p
          | _ => "0"
          end
      | None => "0"
      end
  end.

(** ** Inputs of the examples *)

(** Kinesis: under the iterator ["it0"] the shard holds three records, the
    second of which does not decode, and names ["it1"] as the next
    iterator; under any other iterator it has nothing new. *)
Definition shard_with_bad_record (it : option string) : Kinesis.get_records_result :=
  if decide (it = Some "it0") then
    Kinesis.Response
      (Kinesis.mkResponse
         [Kinesis.mkRecord "1" "seq-1";
          Kinesis.mkRecord "{bad json" "seq-2";
          Kinesis.mkRecord "3" "seq-3"]
         (Some "it1"))
  else Kinesis.Response (Kinesis.mkResponse [] (Some "it2")).

(** Redis: a database in which the stream ["events"] has two entries and
    a stream called ["block"] has one, older than both. *)
Definition db_with_block : gmap string (list RedisStream.entry) :=
  <["block" := [("1001-0", [("k", "v")])]]>
    (<["events" := [("1500-0", [("a", "1")]); ("2000-0", [("a", "2")])]]> ∅).

(** ** Kafka: the configuration given to the consumer
    (geniusrise_listeners/kafka.py, the head of [listen]) *)

Module KafkaConfig.

(** Truth value of an [Optional[str]]: None and the empty text are false. *)
Definition truthy (s : option string) : bool :=
  match s with
  | Some (String _ _) => true
  | _ => false
  end.

(** The dictionary given to [config.update] when both are set. *)
Definition sasl (username password : string) : gmap string string :=
  <["security.protocol" := "SASL_PLAINTEXT"]>
    (<["sasl.mechanisms" := "PLAIN"]>
       (<["sasl.username" := username]>
          (<["sasl.password" := password]> ∅))).

(** [config], as [Consumer] receives it; [d.update(other)] lets the
    entries of [other] win. *)
Definition config (bootstrap_servers group_id : string)
    (username password : option string) : gmap string string :=
  let config :=
    <["bootstrap.servers" := bootstrap_servers]>
      (<["group.id" := group_id]>
         (<["auto.offset.reset" := "earliest"]> ∅)) in
  match username, password with
  | Some u, Some p =>
      if truthy username && truthy password then sasl u p ∪ config else config
  | _, _ => config
  end.

End KafkaConfig.

(** ** Vocabulary of the further properties *)

(** A relation between the world before and the world after that every
    run of [m] keeps. *)
Definition preserved (R : ∀ E, World E → World E → Prop) {E A} (m : M E A) : Prop :=
  ∀ w, R E w (snd (m w)).

(** What is stored under any other id is as before. *)
Definition same_elsewhere (id : string) (E : Type) (w w' : World E) : Prop :=
  ∀ id', id' ≠ id → store w' !! id' = store w !! id'.

(** [success_count] under [id] went up by the number of envelopes the sink
    took. *)
Definition balanced (id : string) (E : Type) (w w' : World E) : Prop :=
  success_count (counters_of id w') - success_count (counters_of id w)
  = Z.of_nat (length (saved w')) - Z.of_nat (length (saved w)).

(** The [last_id] read under [id] is as before. *)
Definition keeps_cursor (id : string) (E : Type) (w w' : World E) : Prop :=
  last_id (counters_of id w') = last_id (counters_of id w).

(** [failure_count] under [id] is as before. *)
Definition same_failures (id : string) (E : Type) (w w' : World E) : Prop :=
  failure_count (counters_of id w') = failure_count (counters_of id w).

(** [R] holds between the world [listen] starts in and the world it has
    reached, for the six spouts that count with the shared blocks. *)
Definition six_spouts_keep (R : ∀ E, World E → World E → Prop) {V}
    (json_loads : string → option V) (id : string) : Prop :=
  (∀ subscribed polls w,
     R _ w (snd (Kafka.listen json_loads id subscribed polls w)))
  ∧ (∀ connected evs w,
       R _ w (snd (RabbitMQ.listen json_loads id connected evs w)))
  ∧ (∀ channel subscribed items w,
       R _ w (snd (RedisPubSub.listen json_loads id channel subscribed items w)))
  ∧ (∀ latest calls w,
       R _ w (snd (Kinesis.listen json_loads id latest calls w)))
  ∧ (∀ topic syntax socket_type connected recvs w,
       R _ w (snd (ZeroMQ.listen json_loads id topic syntax socket_type connected recvs w)))
  ∧ (∀ url method interval headers params answers w,
       R _ w (snd (RESTAPIPoll.listen (V:=V) id url method interval headers params answers w))).

(** The same for the Redis Streams spout. *)
Definition redis_stream_keeps (R : ∀ E, World E → World E → Prop) (id : string) : Prop :=
  ∀ stream_key arg client xreads w,
    R _ w (snd (RedisStream._listen id stream_key arg client xreads w)).

(** Kafka: a poll that ends in one of the two counting blocks, a message
    or an exception of [poll]. *)
Definition Kafka_counted (p : Kafka.poll_result) : bool :=
  match p with
  | Kafka.Message _ | Kafka.PollRaises _ => true
  | _ => false
  end.

(** The number of outcomes counted under [id]. *)
Definition total_count {E} (id : string) (w : World E) : Z :=
  success_count (counters_of id w) + failure_count (counters_of id w).

(** Redis Pub/Sub: an item that is yielded but is no ["message"]. *)
Definition is_not_message (it : RedisPubSub.item) : bool :=
  match it with
  | RedisPubSub.Yields type_ _ => negb (String.eqb type_ "message")
  | RedisPubSub.ListenRaises _ => false
  end.

(** The text has no blank. *)
Definition no_blank (s : string) : bool :=
  forallb (λ c, negb (Ascii.eqb c " ")) (list_ascii_of_string s).

(** Redis Streams: the envelope of an entry. *)
Definition stream_envelope (stream_key : string) (m : RedisStream.entry)
  : RedisStream.Envelope :=
  RedisStream.mkEnvelope (snd m) stream_key (fst m).

(** Kinesis: the envelopes of the records that decode. *)
Definition kinesis_envelopes {V} (json_loads : string → option V)
    (records : list Kinesis.record) : list (Kinesis.Envelope (V:=V)) :=
  omap (λ r, match json_loads (Kinesis.Data r) with
             | Some d => Some (Kinesis.mkEnvelope d (Kinesis.SequenceNumber r))
             | None => None
             end) records.

Definition record_decodes {V} (json_loads : string → option V) (r : Kinesis.record)
  : bool :=
  decodes json_loads (Kinesis.Data r).

(** REST poller: the request itself raises [HTTPError], before [response]
    is assigned. *)
Definition raises_http_error {V} (a : RESTAPIPoll.request_result (V:=V)) : bool :=
  match a with
  | RESTAPIPoll.RequestRaises (HTTPError _) => true
  | _ => false
  end.

(** REST poller: [method.lower()] names a function of [requests]. *)
Definition known_method (method : string) : bool :=
  existsb (String.eqb (lower method)) RESTAPIPoll.requests_functions.

(** * Properties *)

(** ** Empty fetches (Kafka) *)

Lemma Kafka_empty_iteration {V} (json_loads : string → option V) id p w :
  is_empty_fetch p = true → Kafka.iteration json_loads id p w = (Ok tt, w).
Proof.
  destruct p as [ | code partition | value | e]; simpl; try discriminate.
  - reflexivity.
  - intros Hc. unfold Kafka.iteration, try_except. rewrite Hc. reflexivity.
Qed.

(** C6. Any number of consecutive empty fetches of the Kafka spout
    (timeouts, end-of-partition notices) leaves the whole world as it was:
    the store, so the persisted counters and cursor, is untouched, nothing
    is written, and the sink is not called; the loop is back in [poll]. *)
Theorem C6_empty_fetches_mutate_nothing {V} (json_loads : string → option V)
    (id : string) (polls : list Kafka.poll_result) (w : World V) :
  forallb is_empty_fetch polls = true →
  Kafka.listen json_loads id (Ok tt) polls w = (Blocked, [], w).
Proof.
  induction polls as [ | p polls IH]; simpl; [reflexivity | ].
  intros H. apply andb_prop in H as [Hp Hrest].
  rewrite (Kafka_empty_iteration json_loads id p w Hp).
  exact (IH Hrest).
Qed.

Lemma C6_witness :
  Kafka.listen int_loads "kafka-1" (Ok tt)
    [Kafka.NoMessage; Kafka.ErrorMessage (-191) 3; Kafka.NoMessage]
    (world0 (<["kafka-1" := mkState 4 1 None]> ∅) [])
  = (Blocked, [], world0 (<["kafka-1" := mkState 4 1 None]> ∅) []).
Proof. apply C6_empty_fetches_mutate_nothing. reflexivity. Defined.

(** ** Unsupported socket types (ZeroMQ) *)

(** C7. With any [socket_type] other than ["SUB"], [listen] raises
    [ValueError] right after creating the context: no message of the
    transport is received, the world (store, writes, sink) is as before. *)
Theorem C7_unsupported_socket_type_fails_fast {V} (json_loads : string → option V)
    (id topic syntax : string) (socket_type : option string)
    (connected : result unit) (recvs : list ZeroMQ.recv_result)
    (w : World (ZeroMQ.Envelope (V:=V))) :
  socket_type ≠ Some "SUB" →
  ZeroMQ.listen json_loads id topic syntax socket_type connected recvs w
  = (Raised (ValueError ("Unsupported socket type: " +:+ ZeroMQ.show socket_type)),
     recvs, w).
Proof.
  intros Hne. unfold ZeroMQ.listen.
  destruct (decide (socket_type = Some "SUB")) as [Heq | _]; [contradiction | reflexivity].
Qed.

Lemma C7_witness :
  ZeroMQ.listen int_loads "zmq-1" "t" "json" (Some "PULL") (Ok tt)
    [ZeroMQ.Received "t 1"] (world0 ∅ [])
  = (Raised (ValueError "Unsupported socket type: PULL"),
     [ZeroMQ.Received "t 1"], world0 ∅ []).
Proof. apply (C7_unsupported_socket_type_fails_fast int_loads). discriminate. Defined.

(** ** Where the Redis Streams spout starts reading *)


(** ** Payload by payload: decode, save, count *)

Lemma save_accepted {E} (e : E) (w : World E) :
  hd None (sink w) = None → save e w = (Ok tt, accepted e w).
Proof.
  unfold save, accepted. destruct (sink w) as [ | [err | ] rest]; simpl;
    intros H; try discriminate; reflexivity.
Qed.

Lemma save_rejected {E} (e : E) (w : World E) err :
  hd None (sink w) = Some err → save e w = (Raise err, rejected w).
Proof.
  unfold save, rejected. destruct (sink w) as [ | [err' | ] rest]; simpl;
    intros H; try discriminate. congruence.
Qed.

(** The block the spouts share: decode the payload, save its envelope,
    count a success; any exception counts a failure. *)
Lemma decode_save_count {E V} (json_loads : string → option V) (id : string)
    (env : V → E) (payload msg : string) (w : World E) :
  try_except
    (do data <- loads json_loads payload;
     save (env data);;
     count_success id)
    (λ e, log msg;; count_failure id) w
  = (Ok tt,
     match json_loads payload with
     | None => after_failure id w
     | Some d =>
         match hd None (sink w) with
         | None => after_success id (accepted (env d) w)
         | Some _ => after_failure id (rejected w)
         end
     end).
Proof.
  unfold try_except, bind, loads.
  destruct (json_loads payload) as [d | ]; [ | reflexivity].
  unfold ret. destruct (hd None (sink w)) as [err | ] eqn:Hs.
  - rewrite (save_rejected _ _ _ Hs). reflexivity.
  - rewrite (save_accepted _ _ Hs). reflexivity.
Qed.

Lemma counters_after_failure {E} id (w : World E) :
  counters_of id (after_failure id w) = incr_failure (counters_of id w).
Proof.
  unfold counters_of, after_failure, count_failure, bind, get_state, set_state.
  simpl. rewrite lookup_insert_eq. reflexivity.
Qed.

Lemma counters_after_success {E} id (w : World E) :
  counters_of id (after_success id w) = incr_success (counters_of id w).
Proof.
  unfold counters_of, after_success, count_success, bind, get_state, set_state.
  simpl. rewrite lookup_insert_eq. reflexivity.
Qed.

Lemma saved_after_success {E} id (w : World E) :
  saved (after_success id w) = saved w.
Proof. reflexivity. Qed.

Lemma saved_after_failure {E} id (w : World E) :
  saved (after_failure id w) = saved w.
Proof. reflexivity. Qed.

Lemma counters_accepted {E} id (e : E) (w : World E) :
  counters_of id (accepted e w) = counters_of id w.
Proof. reflexivity. Qed.

Lemma accepts_all_tail {E} (w : World E) :
  accepts_all w = true →
  hd None (sink w) = None ∧ all_accept (tail (sink w)) = true.
Proof.
  unfold accepts_all, all_accept. destruct (sink w) as [ | [err | ] rest]; simpl;
    intros H; try discriminate; auto.
Qed.

Lemma length_decoded {V} (json_loads : string → option V) payloads :
  Z.of_nat (length (omap json_loads payloads))
  = Z.of_nat (length payloads) - Z.of_nat (length (malformed json_loads payloads)).
Proof.
  induction payloads as [ | p payloads IH]; [reflexivity | ].
  unfold malformed, decodes in *. cbn [omap list_omap List.filter length].
  destruct (json_loads p); cbn [negb length]; rewrite ?Nat2Z.inj_succ; lia.
Qed.

Section Payloads.
Context {E V Ev : Type} (json_loads : string → option V) (id : string).
Context (env : V → E) (body : Ev → M E unit) (inj : string → Ev).

(** A loop body that treats the payload carried by [inj payload] with the
    shared block. *)
Hypothesis body_inj : ∀ payload w,
  body (inj payload) w
  = (Ok tt,
     match json_loads payload with
     | None => after_failure id w
     | Some d =>
         match hd None (sink w) with
         | None => after_success id (accepted (env d) w)
         | Some _ => after_failure id (rejected w)
         end
     end).

Lemma run_payloads (payloads : list string) (w : World E) :
  accepts_all w = true →
  ∃ w', while_true body (List.map inj payloads) w = (Blocked, [], w')
        ∧ saved w' = saved w ++ List.map env (omap json_loads payloads)
        ∧ success_count (counters_of id w')
          = success_count (counters_of id w)
            + (Z.of_nat (length payloads)
               - Z.of_nat (length (malformed json_loads payloads)))
        ∧ failure_count (counters_of id w')
          = failure_count (counters_of id w)
            + Z.of_nat (length (malformed json_loads payloads)).
Proof.
  revert w. induction payloads as [ | p payloads IH]; intros w Hacc.
  - exists w. simpl. rewrite app_nil_r. repeat split; lia.
  - cbn [List.map while_true]. rewrite body_inj.
    unfold malformed, decodes in *. cbn [List.filter omap list_omap length].
    destruct (json_loads p) as [d | ] eqn:Hp; cbn [negb length List.map];
      rewrite ?Nat2Z.inj_succ.
    + destruct (accepts_all_tail w Hacc) as [Hhd Htl]. rewrite Hhd.
      destruct (IH (after_success id (accepted (env d) w)) Htl)
        as (w' & Hrun & Hsaved & Hs & Hf).
      exists w'. rewrite Hrun, Hsaved, Hs, Hf, counters_after_success.
      repeat split.
      * rewrite saved_after_success. cbn [saved accepted].
        rewrite <- app_assoc. reflexivity.
      * rewrite counters_accepted. cbn [success_count incr_success]. lia.
    + destruct (IH (after_failure id w) Hacc) as (w' & Hrun & Hsaved & Hs & Hf).
      exists w'. rewrite Hrun, Hsaved, Hs, Hf, counters_after_failure.
      repeat split; cbn [success_count failure_count incr_failure]; lia.
Qed.

End Payloads.



(** ** Every write counts one *)

Lemma extends_refl {E} id (w : World E) : extends id w w.
Proof.
  split; [ | lia]. exists []. rewrite app_nil_r. split; [reflexivity | constructor].
Qed.

Lemma extends_trans {E} id (w1 w2 w3 : World E) :
  extends id w1 w2 → extends id w2 w3 → extends id w1 w3.
Proof.
  intros [(n1 & H1 & F1) [S1 L1]] [(n2 & H2 & F2) [S2 L2]].
  split; [ | lia]. exists (n1 ++ n2). split.
  - rewrite H2, H1, app_assoc. reflexivity.
  - apply Forall_app. split; assumption.
Qed.

Lemma extends_after_failure {E} id (w : World E) : extends id w (after_failure id w).
Proof.
  split.
  - eexists. split; [reflexivity | ].
    constructor; [ | constructor]. split; [reflexivity | ].
    right. split; reflexivity.
  - rewrite counters_after_failure. simpl. lia.
Qed.

Lemma extends_after_success {E} id (w : World E) : extends id w (after_success id w).
Proof.
  split.
  - eexists. split; [reflexivity | ].
    constructor; [ | constructor]. split; [reflexivity | ].
    left. split; reflexivity.
  - rewrite counters_after_success. simpl. lia.
Qed.

Create HintDb sound.

Lemma sound_ret {E A} id (a : A) : sound (E:=E) id (ret a).
Proof. intros w. apply extends_refl. Qed.

Lemma sound_raise {E A} id e : sound (E:=E) (A:=A) id (raise e).
Proof. intros w. apply extends_refl. Qed.

Lemma sound_lift {E A} id (r : result A) : sound (E:=E) id (lift r).
Proof. intros w. apply extends_refl. Qed.

Lemma sound_log {E} id msg : sound (E:=E) id (log msg).
Proof. intros w. apply extends_refl. Qed.

Lemma sound_loads {E V} id (json_loads : string → option V) s :
  sound (E:=E) id (loads json_loads s).
Proof. intros w. unfold loads. destruct (json_loads s); apply extends_refl. Qed.

Lemma sound_save {E} id (e : E) : sound id (save e).
Proof.
  intros w. unfold save.
  destruct (sink w) as [ | [err | ] rest]; simpl;
    (split; [exists []; rewrite app_nil_r; split; [reflexivity | constructor] | ]);
    unfold counters_of; simpl; lia.
Qed.

Lemma sound_count_success {E} id : sound (E:=E) id (count_success id).
Proof. intros w. apply extends_after_success. Qed.

Lemma sound_count_failure {E} id : sound (E:=E) id (count_failure id).
Proof. intros w. apply extends_after_failure. Qed.

Lemma sound_bind {E A B} id (m : M E A) (k : A → M E B) :
  sound id m → (∀ a, sound id (k a)) → sound id (bind m k).
Proof.
  intros Hm Hk w. unfold bind. specialize (Hm w).
  destruct (m w) as [[a | e] w1]; simpl in *; [ | exact Hm].
  eapply extends_trans; [exact Hm | apply Hk].
Qed.

Lemma sound_try_except {E A} id (body : M E A) (handler : exn → M E A) :
  sound id body → (∀ e, sound id (handler e)) → sound id (try_except body handler).
Proof.
  intros Hb Hh w. unfold try_except. specialize (Hb w).
  destruct (body w) as [[a | e] w1]; simpl in *; [exact Hb | ].
  eapply extends_trans; [exact Hb | apply Hh].
Qed.

#[local] Hint Resolve sound_ret sound_raise sound_lift sound_log sound_loads
  sound_save sound_count_success sound_count_failure : sound.
#[local] Hint Extern 2 (sound _ (bind _ _)) =>
  apply sound_bind; [ | intros ? ] : sound.
#[local] Hint Extern 2 (sound _ (try_except _ _)) =>
  apply sound_try_except; [ | intros ? ] : sound.

Lemma extends_while_true {E Ev} id (body : Ev → M E unit) evs (w : World E) :
  (∀ ev, sound id (body ev)) → extends id w (snd (while_true body evs w)).
Proof.
  intros Hb. revert w. induction evs as [ | ev evs IH]; intros w; simpl.
  - apply extends_refl.
  - specialize (Hb ev w). destruct (body ev w) as [[[] | e] w1]; simpl in *.
    + eapply extends_trans; [exact Hb | apply IH].
    + exact Hb.
Qed.

Lemma extends_except_around_loop {E Ev} id (handler : exn → M E unit)
    (r : outcome * list Ev * World E) (w : World E) :
  (∀ e, sound id (handler e)) → extends id w (snd r) →
  extends id w (snd (except_around_loop handler r)).
Proof.
  intros Hh Hr. destruct r as [[[ | | e] rest] w1]; simpl in *; try exact Hr.
  specialize (Hh e w1). destruct (handler e w1) as [[[] | e'] w2]; simpl in *;
    eapply extends_trans; eauto.
Qed.

Lemma Kafka_iteration_sound {V} (json_loads : string → option V) id p :
  sound id (Kafka.iteration json_loads id p).
Proof.
  unfold Kafka.iteration, Kafka.loads_value.
  destruct p as [ | code partition | [value | ] | e];
    try destruct (Z.eqb code Kafka._PARTITION_EOF); auto 10 with sound.
Qed.

Lemma RabbitMQ_dispatch_sound {V} (json_loads : string → option V) id ev :
  sound id (RabbitMQ.dispatch json_loads id ev).
Proof.
  destruct ev as [d | e]; simpl; [ | auto with sound].
  unfold RabbitMQ._callback, RabbitMQ.dict_of.
  destruct (RabbitMQ.headers d); auto 12 with sound.
Qed.

Lemma RedisPubSub_step_sound {V} (json_loads : string → option V) id channel it :
  sound id (RedisPubSub.step json_loads id channel it).
Proof.
  destruct it as [type_ data_ | e]; simpl; [ | auto with sound].
  unfold RedisPubSub.handle.
  destruct (String.eqb type_ "message"); auto 12 with sound.
Qed.

Lemma Kinesis_process_sound {V} (json_loads : string → option V) id records :
  sound id (Kinesis.process json_loads id records).
Proof.
  induction records as [ | r records IH]; simpl; auto 12 with sound.
Qed.

Lemma Kinesis_iteration_sound {V} (json_loads : string → option V) id
    get_records shard_iterator :
  sound id (Kinesis.iteration json_loads id get_records shard_iterator).
Proof.
  unfold Kinesis.iteration, Kinesis.call.
  pose proof (Kinesis_process_sound json_loads id) as Hp.
  destruct (get_records shard_iterator); auto 12 with sound.
Qed.

Lemma Kinesis_loop_extends {V} (json_loads : string → option V) id calls it
    (w : World (Kinesis.Envelope (V:=V))) :
  extends id w (snd (Kinesis.loop json_loads id calls it w)).
Proof.
  revert it w. induction calls as [ | c calls IH]; intros it w; simpl.
  - apply extends_refl.
  - pose proof (Kinesis_iteration_sound json_loads id c it w) as Hc.
    destruct (Kinesis.iteration json_loads id c it w) as [[it' | e] w1]; simpl in *.
    + eapply extends_trans; [exact Hc | apply IH].
    + exact Hc.
Qed.

Lemma ZeroMQ_iteration_sound {V} (json_loads : string → option V) id topic syntax r :
  sound id (ZeroMQ.iteration json_loads id topic syntax r).
Proof.
  unfold ZeroMQ.iteration, ZeroMQ.after_topic.
  apply sound_bind; [destruct r; auto with sound | intros message].
  apply sound_bind; [ | auto 8 with sound].
  destruct (String.eqb syntax "json"); [ | auto with sound].
  destruct (snd (split_once " " message)); auto 8 with sound.
Qed.

Lemma RESTAPIPoll_poll_api_sound {V} id url method headers params answer :
  sound id (RESTAPIPoll.poll_api (V:=V) id url method headers params answer).
Proof.
  assert (Hh : ∀ r e, sound id (RESTAPIPoll.handler (V:=V) id r e)).
  { intros r e. unfold RESTAPIPoll.handler. destruct e, r; auto 8 with sound. }
  intros w. unfold RESTAPIPoll.poll_api.
  assert (Hreq : sound id (RESTAPIPoll.request (V:=V) (lower method) answer)).
  { unfold RESTAPIPoll.request.
    destruct (existsb _ _); [destruct answer | ]; auto with sound. }
  specialize (Hreq w).
  destruct (RESTAPIPoll.request (lower method) answer w) as [[r | e] w1]; simpl in Hreq.
  - eapply extends_trans; [exact Hreq | ].
    apply sound_try_except; [ | apply Hh].
    apply sound_bind; [ | auto 8 with sound].
    unfold RESTAPIPoll.raise_for_status. destruct (_ && _)%bool; auto with sound.
  - eapply extends_trans; [exact Hreq | apply Hh].
Qed.

(** The Redis Streams spout counts failures on its local [current_state];
    the local agrees with the store all along. *)

Lemma RedisStream_account_extends id last (w : World RedisStream.Envelope) :
  ∃ cs w2, RedisStream.account id last w = (Ok cs, w2)
           ∧ extends id w w2 ∧ counters_of id w2 = cs ∧ sink w2 = sink w.
Proof.
  unfold RedisStream.account, bind, get_state, set_state, ret. cbn.
  eexists _, _. split; [reflexivity | ]. repeat split.
  - eexists. split; [reflexivity | ].
    constructor; [ | constructor]. split; [reflexivity | ].
    left. simpl. destruct (store w !! id); split; reflexivity.
  - unfold counters_of. simpl. rewrite lookup_insert_eq. simpl.
    destruct (store w !! id); simpl; lia.
  - unfold counters_of. simpl. rewrite lookup_insert_eq. simpl.
    destruct (store w !! id); simpl; lia.
  - unfold counters_of. simpl. rewrite lookup_insert_eq. reflexivity.
Qed.

Lemma RedisStream_process_extends id stream_key messages :
  ∀ l w, agrees id l w →
    extends id w (snd (RedisStream.process id stream_key messages l w))
    ∧ agrees id (snd (fst (RedisStream.process id stream_key messages l w)))
        (snd (RedisStream.process id stream_key messages l w)).
Proof.
  induction messages as [ | [msg_id flds] rest IH]; intros l w Hl.
  - simpl. split; [apply extends_refl | exact Hl].
  - cbn [RedisStream.process]. unfold bind.
    pose proof (sound_save id (RedisStream.mkEnvelope flds stream_key msg_id) w) as Hsave.
    destruct (hd None (sink w)) as [err | ] eqn:Hs.
    + rewrite (save_rejected _ _ _ Hs) in *. simpl in *. split; [exact Hsave | exact Hl].
    + rewrite (save_accepted _ _ Hs) in *. cbn beta iota. simpl in Hsave.
      destruct (RedisStream_account_extends id msg_id
                  (accepted (RedisStream.mkEnvelope flds stream_key msg_id) w))
        as (cs & w2 & Hacc & Hext & Hcs & _).
      rewrite Hacc.
      destruct (IH (RedisStream.mkLocals msg_id cs) w2) as [IH1 IH2].
      { unfold agrees. simpl. rewrite Hcs. split; reflexivity. }
      split; [ | exact IH2].
      eapply extends_trans; [exact Hsave | ].
      eapply extends_trans; [exact Hext | exact IH1].
Qed.

Lemma RedisStream_inner_handler_extends id l w :
  agrees id l w →
  fst (fst (RedisStream.inner_handler id l w)) = Ok tt
  ∧ extends id w (snd (RedisStream.inner_handler id l w))
  ∧ agrees id (snd (fst (RedisStream.inner_handler id l w)))
      (snd (RedisStream.inner_handler id l w)).
Proof.
  intros [Hsucc Hfail]. unfold RedisStream.inner_handler, agrees. simpl.
  split; [reflexivity | ]. split; [split | ].
  - eexists. split; [reflexivity | ].
    constructor; [ | constructor]. split; [reflexivity | ].
    right. simpl. split; [exact Hsucc | rewrite Hfail; reflexivity].
  - unfold counters_of at 2 4. simpl. rewrite lookup_insert_eq. simpl. lia.
  - unfold counters_of. simpl. rewrite lookup_insert_eq. split; reflexivity.
Qed.

Lemma RedisStream_iteration_extends id stream_key xread l w :
  agrees id l w →
  fst (fst (RedisStream.iteration id stream_key xread l w)) = Ok tt
  ∧ extends id w (snd (RedisStream.iteration id stream_key xread l w))
  ∧ agrees id (snd (fst (RedisStream.iteration id stream_key xread l w)))
      (snd (RedisStream.iteration id stream_key xread l w)).
Proof.
  intros Hl. unfold RedisStream.iteration.
  destruct (xread _) as [result_ | e]; [ | apply RedisStream_inner_handler_extends, Hl].
  destruct (RedisStream_process_extends id stream_key
              (concat (List.map snd result_)) l w Hl) as [Hext Hag].
  destruct (RedisStream.process id stream_key _ l w) as [[[[] | e] l1] w1]; simpl in *.
  - split; [reflexivity | split; assumption].
  - destruct (RedisStream_inner_handler_extends id l1 w1 Hag) as (Hok & Hext' & Hag').
    split; [exact Hok | ]. split; [ | exact Hag'].
    eapply extends_trans; eassumption.
Qed.

Lemma RedisStream_loop_extends id stream_key xreads :
  ∀ l w, agrees id l w →
    fst (fst (RedisStream.loop id stream_key xreads l w)) = Blocked
    ∧ extends id w (snd (RedisStream.loop id stream_key xreads l w)).
Proof.
  induction xreads as [ | x xreads IH]; intros l w Hl; simpl.
  - split; [reflexivity | apply extends_refl].
  - destruct (RedisStream_iteration_extends id stream_key x l w Hl) as (Hok & Hext & Hag).
    destruct (RedisStream.iteration id stream_key x l w) as [[r l1] w1]; simpl in *.
    subst r. destruct (IH l1 w1 Hag) as [Hb Hext'].
    split; [exact Hb | eapply extends_trans; eassumption].
Qed.

Lemma RedisStream_outer_handler_sound id last :
  sound id (RedisStream.outer_handler id last).
Proof.
  intros w. split.
  - eexists. split; [reflexivity | ].
    constructor; [ | constructor]. split; [reflexivity | ].
    right. simpl. destruct (store w !! id); split; reflexivity.
  - unfold counters_of. simpl. rewrite lookup_insert_eq.
    destruct (store w !! id); simpl; lia.
Qed.

Lemma RedisStream_initial_agrees id arg w :
  agrees id (RedisStream.initial_locals id arg w) w.
Proof.
  unfold agrees, RedisStream.initial_locals, counters_of. simpl.
  destruct (store w !! id); split; reflexivity.
Qed.

Lemma RedisStream_listen_extends id stream_key arg client xreads w :
  extends id w (snd (RedisStream._listen id stream_key arg client xreads w)).
Proof.
  unfold RedisStream._listen. destruct client as [[] | e].
  - destruct (RedisStream_loop_extends id stream_key xreads _ w
                (RedisStream_initial_agrees id arg w)) as [Hb Hext].
    destruct (RedisStream.loop id stream_key xreads _ w) as [[o l] w1]; simpl in *.
    subst o. exact Hext.
  - pose proof (RedisStream_outer_handler_sound id arg w) as H.
    destruct (RedisStream.outer_handler id arg w) as [[[] | e'] w1]; exact H.
Qed.


(** ** Failures of the connection *)



(** ** One bad message *)

(** C3, at the inputs where the code departs from it. ZeroMQ: the first
    message does not decode; [listen] counts one failure and returns, the
    second message is never received. Kinesis: the second record of a
    batch does not decode; the turn counts one failure, drops the third
    record and keeps the old iterator, so each further turn reads the same
    batch: the first record is saved again, the failure counted again, and
    the third record is never reached. *)
Theorem C3_bad_message_ends_zeromq_and_stalls_kinesis :
  ZeroMQ.listen int_loads "zmq-1" "t" "json" (Some "SUB") (Ok tt)
    [ZeroMQ.Received "t {bad json"; ZeroMQ.Received "t 2"] (world0 ∅ [])
  = (Returned, [ZeroMQ.Received "t 2"], after_failure "zmq-1" (world0 ∅ []))
  ∧ fst (Kinesis.listen int_loads "kinesis-1" (Ok "it0")
           [shard_with_bad_record; shard_with_bad_record; shard_with_bad_record]
           (world0 ∅ []))
    = (Blocked, Some "it0")
  ∧ saved (snd (Kinesis.listen int_loads "kinesis-1" (Ok "it0")
                  [shard_with_bad_record; shard_with_bad_record; shard_with_bad_record]
                  (world0 ∅ [])))
    = [Kinesis.mkEnvelope 1 "seq-1"; Kinesis.mkEnvelope 1 "seq-1";
       Kinesis.mkEnvelope 1 "seq-1"]
  ∧ counters_of "kinesis-1"
      (snd (Kinesis.listen int_loads "kinesis-1" (Ok "it0")
              [shard_with_bad_record; shard_with_bad_record; shard_with_bad_record]
              (world0 ∅ [])))
    = mkState 3 3 None.
Proof. repeat apply conj; reflexivity. Qed.

(** ** The shard iterator of Kinesis *)

(** C4, refuted as stated: after an empty batch that names the new
    iterator ["it1"], the spout holds ["it1"] in its local variable and the
    store is as empty as before. *)
Lemma C4_counterexample :
  Kinesis.listen int_loads "kinesis-1" (Ok "it0")
    [λ _, Kinesis.Response (Kinesis.mkResponse [] (Some "it1"))] (world0 ∅ [])
  = (Blocked, Some "it1", world0 ∅ [])
  ∧ ¬ (∃ s,
         store (snd (Kinesis.listen int_loads "kinesis-1" (Ok "it0")
                       [λ _, Kinesis.Response (Kinesis.mkResponse [] (Some "it1"))]
                       (world0 ∅ []))) !! "kinesis-1" = Some s
         ∧ last_id s = Some (Some "it1")).
Proof.
  split; [reflexivity | ].
  intros (s & H & _). discriminate H.
Qed.

(** C4, amended. When [get_records] answers an empty batch with a new
    iterator, the turn ends with the new iterator in the local variable
    for the next fetch and the world exactly as before: nothing is written
    to the store, no counter moves. And [listen] starts from the iterator
    [get_shard_iterator] gave for LATEST, whatever the store holds. *)
Theorem C4_empty_batch_token_stays_local {V} (json_loads : string → option V)
    (id : string) (get_records : option string → Kinesis.get_records_result)
    (shard_iterator token : option string) (w : World (Kinesis.Envelope (V:=V))) :
  get_records shard_iterator = Kinesis.Response (Kinesis.mkResponse [] token) →
  Kinesis.iteration json_loads id get_records shard_iterator w = (Ok token, w)
  ∧ ∀ latest st replies,
      Kinesis.listen json_loads id (Ok latest) [] (world0 st replies)
      = (Blocked, Some latest, world0 st replies).
Proof.
  intros H. split; [ | reflexivity].
  unfold Kinesis.iteration, try_except, bind. rewrite H. reflexivity.
Qed.

Lemma C4_witness :
  Kinesis.iteration int_loads "kinesis-1"
    (λ _, Kinesis.Response (Kinesis.mkResponse [] (Some "it1")))
    (Some "it0") (world0 (<["kinesis-1" := mkState 7 0 None]> ∅) [])
  = (Ok (Some "it1"), world0 (<["kinesis-1" := mkState 7 0 None]> ∅) []).
Proof.
  apply (C4_empty_batch_token_stays_local int_loads "kinesis-1"
           (λ _, Kinesis.Response (Kinesis.mkResponse [] (Some "it1")))
           (Some "it0") (Some "it1")).
  reflexivity.
Defined.

(** ** The cursor of Redis Streams *)

Lemma id_ltb_leb a b : RedisStream.id_ltb a b = true → RedisStream.id_leb a b = true.
Proof.
  unfold RedisStream.id_leb, RedisStream.id_ltb. destruct a as [a1 a2], b as [b1 b2].
  simpl. intros H.
  apply Bool.negb_true_iff, Bool.not_true_is_false. intros H'.
  apply Bool.orb_true_iff in H, H'.
  rewrite !Bool.andb_true_iff, !Z.ltb_lt, !Z.eqb_eq in *. lia.
Qed.

Lemma cursor_lt_le a b : RedisStream.cursor_lt a b → RedisStream.cursor_le a b.
Proof.
  unfold RedisStream.cursor_lt, RedisStream.cursor_le.
  destruct (RedisStream.parse_id a), (RedisStream.parse_id b); auto using id_ltb_leb.
Qed.

(** After a reply has been gone through, the local cursor is the id of one
    of its entries, or it has not moved. *)
Lemma RedisStream_process_last_id id stream_key messages :
  ∀ l w,
    RedisStream.l_last_id (snd (fst (RedisStream.process id stream_key messages l w)))
    = RedisStream.l_last_id l
    ∨ In (RedisStream.l_last_id
            (snd (fst (RedisStream.process id stream_key messages l w))))
         (List.map fst messages).
Proof.
  induction messages as [ | [msg_id flds] rest IH]; intros l w.
  - left. reflexivity.
  - right. cbn [RedisStream.process List.map fst].
    destruct ((save _;; RedisStream.account id msg_id) w) as [[cs | e] w1].
    + destruct (IH (RedisStream.mkLocals msg_id cs) w1) as [H | H].
      * left. simpl in H. symmetry. exact H.
      * right. exact H.
    + left. reflexivity.
Qed.

Lemma dict_set_In k v k' v' d :
  In (k, v) (RedisStream.dict_set k' v' d) → (k = k' ∧ v = v') ∨ In (k, v) d.
Proof.
  induction d as [ | [k0 v0] d IH]; simpl.
  - intros [H | []]. left. split; congruence.
  - destruct (String.eqb k0 k') eqn:Hk; simpl.
    + apply String.eqb_eq in Hk. subst k0. intros [H | H].
      * left. split; congruence.
      * right. right. exact H.
    + intros [H | H]; [right; left; exact H | ].
      destruct (IH H) as [H' | H']; [left; exact H' | right; right; exact H'].
Qed.

(** What the spout asks of XREAD: its own stream after its cursor, and the
    streams called ["count"] and ["block"]. *)
Lemma xread_streams_In stream_key last k v :
  In (k, v) (RedisStream.xread_streams stream_key last) →
  (k = stream_key ∧ v = RedisStream.XStr last) ∨ k = "count" ∨ k = "block".
Proof.
  unfold RedisStream.xread_streams. intros H.
  apply dict_set_In in H as [[-> _] | H]; [auto | ].
  apply dict_set_In in H as [[-> _] | H]; [auto | ].
  apply dict_set_In in H as [H | []]. auto.
Qed.

Lemma entries_after_newer last es m :
  In m (RedisStream.entries_after (RedisStream.position_of (RedisStream.XStr last)) es) →
  RedisStream.cursor_lt last (fst m).
Proof.
  unfold RedisStream.position_of, RedisStream.cursor_lt.
  destruct (String.eqb last "$"); [intros [] | ].
  destruct (RedisStream.parse_id last) as [i | ]; [ | intros []].
  simpl. intros H. apply List.filter_In in H as [_ H].
  destruct (RedisStream.parse_id (fst m)); [exact H | discriminate].
Qed.

(** The cursor is not regressed by a turn of the loop when the database
    has no stream called ["count"] or ["block"]: it stays, or moves to a
    strictly newer id. *)
Lemma RedisStream_cursor_monotone_without_extra_streams id stream_key
    (db : gmap string (list RedisStream.entry)) l w :
  db !! "count" = None → db !! "block" = None →
  RedisStream.l_last_id
    (snd (fst (RedisStream.iteration id stream_key (RedisStream.redis_xread db) l w)))
  = RedisStream.l_last_id l
  ∨ RedisStream.cursor_lt (RedisStream.l_last_id l)
      (RedisStream.l_last_id
         (snd (fst (RedisStream.iteration id stream_key (RedisStream.redis_xread db) l w)))).
Proof.
  intros Hcount Hblock. unfold RedisStream.iteration, RedisStream.redis_xread.
  destruct (existsb _ _); [left; reflexivity | ].
  set (messages := concat (List.map snd (List.filter _ _))).
  assert (Hnew : ∀ m, In m messages →
                      RedisStream.cursor_lt (RedisStream.l_last_id l) (fst m)).
  { intros m Hm. subst messages.
    apply List.in_concat in Hm as (es & Hes & Hm).
    apply List.in_map_iff in Hes as ([k es'] & <- & Hk).
    apply List.filter_In in Hk as [Hk _].
    apply List.in_map_iff in Hk as ([k' v] & Heq & Hk).
    unfold RedisStream.read_one in Heq. simpl in Heq.
    injection Heq as -> <-. simpl in Hm.
    apply xread_streams_In in Hk as [[-> ->] | [-> | ->]].
    - eapply entries_after_newer, Hm.
    - rewrite Hcount in Hm. simpl in Hm. destruct (RedisStream.position_of v) in Hm;
        destruct Hm.
    - rewrite Hblock in Hm. simpl in Hm. destruct (RedisStream.position_of v) in Hm;
        destruct Hm. }
  pose proof (RedisStream_process_last_id id stream_key messages l w) as Hlast.
  destruct (RedisStream.process id stream_key messages l w) as [[[[] | e] l1] w1];
    simpl in *.
  - destruct Hlast as [H | H]; [left; exact H | right].
    apply List.in_map_iff in H as (m & <- & Hm). apply Hnew, Hm.
  - destruct Hlast as [H | H]; [left; exact H | right].
    apply List.in_map_iff in H as (m & <- & Hm). apply Hnew, Hm.
Qed.

(** C5, at the input where the code departs from it. The spout reads
    ["events"] after ["2000-0"]; the database also has a stream called
    ["block"]. The dictionary given to XREAD names ["block"] as a stream
    to read after 1000, so the reply is the entry ["1001-0"] of that stream;
    the spout saves it as an entry of ["events"] and takes its id as the
    new cursor, locally and in the store: the cursor went back. *)
Theorem C5_cursor_regresses_on_stream_named_block :
  RedisStream.xread_streams "events" "2000-0"
  = [("events", RedisStream.XStr "2000-0");
     ("count", RedisStream.XInt 10);
     ("block", RedisStream.XInt 1000)]
  ∧ RedisStream.redis_xread db_with_block (RedisStream.xread_streams "events" "2000-0")
    = RedisStream.Reply [("block", [("1001-0", [("k", "v")])])]
  ∧ fst (RedisStream.listen "redis-1" "events" (Ok tt)
           [RedisStream.redis_xread db_with_block]
           (world0 (<["redis-1" := mkState 5 0 (Some (Some "2000-0"))]> ∅) []))
    = (Blocked,
       Some (RedisStream.mkLocals "1001-0" (mkState 6 0 (Some (Some "1001-0")))))
  ∧ store (snd (RedisStream.listen "redis-1" "events" (Ok tt)
                  [RedisStream.redis_xread db_with_block]
                  (world0 (<["redis-1" := mkState 5 0 (Some (Some "2000-0"))]> ∅) [])))
      !! "redis-1"
    = Some (mkState 6 0 (Some (Some "1001-0")))
  ∧ saved (snd (RedisStream.listen "redis-1" "events" (Ok tt)
                  [RedisStream.redis_xread db_with_block]
                  (world0 (<["redis-1" := mkState 5 0 (Some (Some "2000-0"))]> ∅) [])))
    = [RedisStream.mkEnvelope [("k", "v")] "events" "1001-0"]
  ∧ RedisStream.cursor_lt "1001-0" "2000-0"
  ∧ ¬ RedisStream.cursor_le "2000-0" "1001-0".
Proof.
  repeat apply conj; try reflexivity.
  unfold RedisStream.cursor_le. simpl. discriminate.
Qed.

(** ** The REST poller *)

Lemma poll_api_http_error {V} id url method headers params (r : RESTAPIPoll.response) w :
  existsb (String.eqb (lower method)) RESTAPIPoll.requests_functions = true →
  400 ≤ RESTAPIPoll.status_code r < 600 →
  RESTAPIPoll.poll_api (V:=V) id url method headers params (RESTAPIPoll.Responds r) w
  = (Ok tt, w).
Proof.
  intros Hm [Hlo Hhi].
  unfold RESTAPIPoll.poll_api, try_except, bind, RESTAPIPoll.request,
    RESTAPIPoll.raise_for_status.
  rewrite Hm. simpl.
  apply Z.leb_le in Hlo. apply Z.ltb_lt in Hhi. rewrite Hlo, Hhi. reflexivity.
Qed.

Lemma poll_api_request_exception {V} id url method headers params what w :
  existsb (String.eqb (lower method)) RESTAPIPoll.requests_functions = true →
  RESTAPIPoll.poll_api (V:=V) id url method headers params
    (RESTAPIPoll.RequestRaises (RequestException what)) w
  = (Ok tt, w).
Proof.
  intros Hm.
  unfold RESTAPIPoll.poll_api, RESTAPIPoll.request.
  rewrite Hm. reflexivity.
Qed.

(** C8, at the inputs where the code departs from it. A poll answered
    with status 500 and a poll whose request raises a [RequestException]
    are logged and leave the world as it was: [failure_count] stays 0. A
    poll whose envelope the sink refuses counts one failure, a poll that
    saves its envelope counts one success. *)
Theorem C8_http_errors_are_not_counted :
  RESTAPIPoll.poll_api "rest-1" "http://api" "GET" None None
    (RESTAPIPoll.Responds (RESTAPIPoll.mkResponse 500 (Ok 1))) (world0 ∅ [])
  = (Ok tt, world0 ∅ [])
  ∧ RESTAPIPoll.poll_api (V:=Z) "rest-1" "http://api" "GET" None None
      (RESTAPIPoll.RequestRaises (RequestException "ConnectionError")) (world0 ∅ [])
    = (Ok tt, world0 ∅ [])
  ∧ RESTAPIPoll.poll_api "rest-1" "http://api" "GET" None None
      (RESTAPIPoll.Responds (RESTAPIPoll.mkResponse 200 (Ok 1)))
      (world0 ∅ [Some (SinkError "unavailable")])
    = (Ok tt, after_failure "rest-1" (world0 ∅ []))
  ∧ RESTAPIPoll.poll_api "rest-1" "http://api" "GET" None None
      (RESTAPIPoll.Responds (RESTAPIPoll.mkResponse 200 (Ok 1))) (world0 ∅ [])
    = (Ok tt,
       after_success "rest-1"
         (accepted (RESTAPIPoll.mkEnvelope 1 "http://api" "GET" None None)
            (world0 ∅ []))).
Proof. repeat apply conj; reflexivity. Qed.

(** * Further properties *)

(** ** Relations that every run keeps *)

Section Preserved.
Context (R : ∀ E, World E → World E → Prop).
Hypothesis R_refl : ∀ E w, R E w w.
Hypothesis R_trans : ∀ E w1 w2 w3, R E w1 w2 → R E w2 w3 → R E w1 w3.

Lemma preserved_ret {E A} (a : A) : preserved R (E:=E) (ret a).
Proof. intros w. apply R_refl. Qed.

Lemma preserved_raise {E A} e : preserved R (E:=E) (A:=A) (raise e).
Proof. intros w. apply R_refl. Qed.

Lemma preserved_lift {E A} (r : result A) : preserved R (E:=E) (lift r).
Proof. intros w. apply R_refl. Qed.

Lemma preserved_log {E} msg : preserved R (E:=E) (log msg).
Proof. intros w. apply R_refl. Qed.

Lemma preserved_loads {E V} (json_loads : string → option V) s :
  preserved R (E:=E) (loads json_loads s).
Proof. intros w. unfold loads. destruct (json_loads s); apply R_refl. Qed.

Lemma preserved_bind {E A B} (m : M E A) (k : A → M E B) :
  preserved R m → (∀ a, preserved R (k a)) → preserved R (bind m k).
Proof.
  intros Hm Hk w. unfold bind. specialize (Hm w).
  destruct (m w) as [[a | e] w1]; simpl in *; [ | exact Hm].
  eapply R_trans; [exact Hm | apply Hk].
Qed.

Lemma preserved_try_except {E A} (body : M E A) (handler : exn → M E A) :
  preserved R body → (∀ e, preserved R (handler e)) →
  preserved R (try_except body handler).
Proof.
  intros Hb Hh w. unfold try_except. specialize (Hb w).
  destruct (body w) as [[a | e] w1]; simpl in *; [exact Hb | ].
  eapply R_trans; [exact Hb | apply Hh].
Qed.

Lemma kept_by_while_true {E Ev} (body : Ev → M E unit) evs (w : World E) :
  (∀ ev, preserved R (body ev)) → R E w (snd (while_true body evs w)).
Proof.
  intros Hb. revert w. induction evs as [ | ev evs IH]; intros w; simpl.
  - apply R_refl.
  - specialize (Hb ev w). destruct (body ev w) as [[[] | e] w1]; simpl in *.
    + eapply R_trans; [exact Hb | apply IH].
    + exact Hb.
Qed.

Lemma kept_by_except_around_loop {E Ev} (handler : exn → M E unit)
    (r : outcome * list Ev * World E) (w : World E) :
  (∀ e, preserved R (handler e)) → R E w (snd r) →
  R E w (snd (except_around_loop handler r)).
Proof.
  intros Hh Hr. destruct r as [[[ | | e] rest] w1]; simpl in *; try exact Hr.
  specialize (Hh e w1). destruct (handler e w1) as [[[] | e'] w2]; simpl in *;
    eapply R_trans; eauto.
Qed.

Section SharedBlocks.
Context (id : string).
Hypothesis R_failure : ∀ E (w : World E), R E w (after_failure id w).
Hypothesis R_save_count : ∀ E (e : E) (w : World E),
  R E w (snd ((save e;; count_success id) w)).

Lemma preserved_count_failure {E} : preserved R (E:=E) (count_failure id).
Proof. intros w. apply R_failure. Qed.

Lemma preserved_save_count {E} (e : E) : preserved R (save e;; count_success id).
Proof. intros w. apply R_save_count. Qed.

Ltac keeps :=
  repeat first
    [ apply preserved_ret | apply preserved_raise | apply preserved_lift
    | apply preserved_log | apply preserved_loads
    | apply preserved_count_failure | apply preserved_save_count
    | apply preserved_bind; [ | intros ? ]
    | apply preserved_try_except; [ | intros ? ] ].

Lemma Kafka_iteration_keeps {V} (json_loads : string → option V) p :
  preserved R (Kafka.iteration json_loads id p).
Proof.
  unfold Kafka.iteration, Kafka.loads_value.
  destruct p as [ | code partition | [value | ] | e];
    try destruct (Z.eqb code Kafka._PARTITION_EOF); keeps.
Qed.

Lemma RabbitMQ_dispatch_keeps {V} (json_loads : string → option V) ev :
  preserved R (RabbitMQ.dispatch json_loads id ev).
Proof.
  destruct ev as [d | e]; simpl; [ | keeps].
  unfold RabbitMQ._callback, RabbitMQ.dict_of.
  destruct (RabbitMQ.headers d); keeps.
Qed.

Lemma RedisPubSub_step_keeps {V} (json_loads : string → option V) channel it :
  preserved R (RedisPubSub.step json_loads id channel it).
Proof.
  destruct it as [type_ data_ | e]; simpl; [ | keeps].
  unfold RedisPubSub.handle. destruct (String.eqb type_ "message"); keeps.
Qed.

Lemma Kinesis_process_keeps {V} (json_loads : string → option V) records :
  preserved R (Kinesis.process json_loads id records).
Proof.
  induction records as [ | r records IH]; simpl; keeps. exact IH.
Qed.

Lemma Kinesis_loop_keeps {V} (json_loads : string → option V) calls it
    (w : World (Kinesis.Envelope (V:=V))) :
  R _ w (snd (Kinesis.loop json_loads id calls it w)).
Proof.
  revert it w. induction calls as [ | c calls IH]; intros it w; simpl.
  - apply R_refl.
  - assert (Hc : preserved R (Kinesis.iteration json_loads id c it)).
    { unfold Kinesis.iteration, Kinesis.call.
      apply preserved_try_except; [ | intros e; keeps].
      apply preserved_bind; [destruct (c it); keeps | intros r].
      apply preserved_bind; [apply Kinesis_process_keeps | intros _; keeps]. }
    specialize (Hc w).
    destruct (Kinesis.iteration json_loads id c it w) as [[it' | e] w1]; simpl in *.
    + eapply R_trans; [exact Hc | apply IH].
    + exact Hc.
Qed.

Lemma ZeroMQ_iteration_keeps {V} (json_loads : string → option V) topic syntax r :
  preserved R (ZeroMQ.iteration json_loads id topic syntax r).
Proof.
  unfold ZeroMQ.iteration, ZeroMQ.after_topic.
  apply preserved_bind; [destruct r; keeps | intros message].
  apply preserved_bind; [ | intros data; keeps].
  destruct (String.eqb syntax "json"); [ | keeps].
  destruct (snd (split_once " " message)); keeps.
Qed.

Lemma RESTAPIPoll_poll_api_keeps {V} url method headers params answer :
  preserved R (RESTAPIPoll.poll_api (V:=V) id url method headers params answer).
Proof.
  assert (Hh : ∀ r e, preserved R (RESTAPIPoll.handler (V:=V) id r e)).
  { intros r e. unfold RESTAPIPoll.handler. destruct e, r; keeps. }
  intros w. unfold RESTAPIPoll.poll_api.
  assert (Hreq : preserved R (RESTAPIPoll.request (V:=V) (lower method) answer)).
  { unfold RESTAPIPoll.request.
    destruct (existsb _ _); [destruct answer | ]; keeps. }
  specialize (Hreq w).
  destruct (RESTAPIPoll.request (lower method) answer w) as [[r | e] w1]; simpl in Hreq.
  - eapply R_trans; [exact Hreq | ].
    apply preserved_try_except; [ | apply Hh].
    apply preserved_bind; [ | intros _; keeps].
    unfold RESTAPIPoll.raise_for_status. destruct (_ && _)%bool; keeps.
  - eapply R_trans; [exact Hreq | apply Hh].
Qed.

Lemma six_spouts_keep_any {V} (json_loads : string → option V) :
  six_spouts_keep R json_loads id.
Proof.
  unfold six_spouts_keep. repeat apply conj.
  - intros [[] | e] polls w; simpl; [ | apply R_refl].
    apply kept_by_while_true. apply Kafka_iteration_keeps.
  - intros connected evs w. unfold RabbitMQ.listen.
    apply kept_by_except_around_loop; [intros e; keeps | ].
    destruct connected as [[] | e]; simpl; [ | apply R_refl].
    apply kept_by_while_true. apply RabbitMQ_dispatch_keeps.
  - intros channel [[] | e] items w; simpl; [ | apply R_refl].
    apply kept_by_while_true. apply RedisPubSub_step_keeps.
  - intros [it | e] calls w; simpl; [ | apply R_refl].
    apply Kinesis_loop_keeps.
  - intros topic syntax socket_type connected recvs w. unfold ZeroMQ.listen.
    destruct (decide _) as [Hsub | Hother]; [ | apply R_refl].
    destruct connected as [[] | err]; [ | apply R_refl].
    apply kept_by_except_around_loop; [intros e; keeps | ].
    apply kept_by_while_true. apply ZeroMQ_iteration_keeps.
  - intros url method interval headers params answers w. unfold RESTAPIPoll.listen.
    apply kept_by_while_true. intros a.
    apply preserved_bind; [apply RESTAPIPoll_poll_api_keeps | intros _].
    unfold RESTAPIPoll.sleep. destruct (interval <? 0); keeps.
Qed.

End SharedBlocks.

Section StreamBlocks.
Context (id : string).
Hypothesis R_entry : ∀ e last w,
  R _ w (snd ((save e;; RedisStream.account id last) w)).
Hypothesis R_inner : ∀ l w,
  agrees id l w → R _ w (snd (RedisStream.inner_handler id l w)).
Hypothesis R_outer : ∀ last w, R _ w (snd (RedisStream.outer_handler id last w)).

Lemma RedisStream_process_keeps stream_key messages :
  ∀ l w, R _ w (snd (RedisStream.process id stream_key messages l w)).
Proof.
  induction messages as [ | [msg_id flds] rest IH]; intros l w.
  - apply R_refl.
  - cbn [RedisStream.process].
    pose proof (R_entry (RedisStream.mkEnvelope flds stream_key msg_id) msg_id w) as H.
    destruct ((save _;; RedisStream.account id msg_id) w) as [[cs | e] w1]; simpl in *.
    + eapply R_trans; [exact H | apply IH].
    + exact H.
Qed.

Lemma RedisStream_iteration_keeps stream_key xread l w :
  agrees id l w →
  R _ w (snd (RedisStream.iteration id stream_key xread l w)).
Proof.
  intros Hl. unfold RedisStream.iteration.
  destruct (xread _) as [result_ | e]; [ | apply R_inner, Hl].
  pose proof (RedisStream_process_keeps stream_key (concat (List.map snd result_)) l w)
    as Hp.
  destruct (RedisStream_process_extends id stream_key
              (concat (List.map snd result_)) l w Hl) as [_ Hag].
  destruct (RedisStream.process id stream_key _ l w) as [[[[] | e] l1] w1]; simpl in *.
  - exact Hp.
  - eapply R_trans; [exact Hp | apply R_inner, Hag].
Qed.

Lemma RedisStream_loop_keeps stream_key xreads :
  ∀ l w, agrees id l w → R _ w (snd (RedisStream.loop id stream_key xreads l w)).
Proof.
  induction xreads as [ | x xreads IH]; intros l w Hl; simpl.
  - apply R_refl.
  - pose proof (RedisStream_iteration_keeps stream_key x l w Hl) as Hx.
    destruct (RedisStream_iteration_extends id stream_key x l w Hl) as (Hok & _ & Hag).
    destruct (RedisStream.iteration id stream_key x l w) as [[r l1] w1]; simpl in *.
    subst r. eapply R_trans; [exact Hx | apply IH, Hag].
Qed.

Lemma redis_stream_keeps_any : redis_stream_keeps R id.
Proof.
  intros stream_key arg client xreads w. unfold RedisStream._listen.
  destruct client as [[] | e].
  - pose proof (RedisStream_loop_keeps stream_key xreads _ w
                  (RedisStream_initial_agrees id arg w)) as Hkeep.
    destruct (RedisStream_loop_extends id stream_key xreads _ w
                (RedisStream_initial_agrees id arg w)) as [Hb _].
    destruct (RedisStream.loop id stream_key xreads _ w) as [[o l] w1]; simpl in *.
    subst o. exact Hkeep.
  - pose proof (R_outer arg w) as H.
    destruct (RedisStream.outer_handler id arg w) as [[[] | e'] w1]; exact H.
Qed.

End StreamBlocks.
End Preserved.

(** ** Three things no spout does *)

Lemma same_elsewhere_after_set {E} id s (w : World E) :
  same_elsewhere id E w (snd (set_state id s w)).
Proof. intros id' Hne. simpl. apply lookup_insert_ne. congruence. Qed.

Lemma same_elsewhere_trans id E (w1 w2 w3 : World E) :
  same_elsewhere id E w1 w2 → same_elsewhere id E w2 w3 → same_elsewhere id E w1 w3.
Proof. intros H1 H2 id' Hne. rewrite (H2 id' Hne). apply H1, Hne. Qed.

Lemma same_elsewhere_save_then {E A} id (e : E) (k : M E A) (w : World E) :
  (∀ w0, same_elsewhere id E w0 (snd (k w0))) →
  same_elsewhere id E w (snd ((save e;; k) w)).
Proof.
  intros Hk. unfold bind.
  destruct (hd None (sink w)) as [err | ] eqn:Hs.
  - rewrite (save_rejected _ _ _ Hs). intros id' _. reflexivity.
  - rewrite (save_accepted _ _ Hs). intros id' Hne. rewrite (Hk _ id' Hne). reflexivity.
Qed.

(** X1. No spout touches what the store holds under another id: whatever the
    transport and the sink do, every other connector's state is, after any
    run of [listen], what it was before. *)
Theorem listen_leaves_other_ids_alone {V} (json_loads : string → option V) (id : string) :
  six_spouts_keep (same_elsewhere id) json_loads id
  ∧ redis_stream_keeps (same_elsewhere id) id.
Proof.
  split.
  - apply six_spouts_keep_any.
    + intros E w id' _. reflexivity.
    + intros E. apply same_elsewhere_trans.
    + intros E w. apply same_elsewhere_after_set.
    + intros E e w. apply same_elsewhere_save_then.
      intros w0. apply same_elsewhere_after_set.
  - apply redis_stream_keeps_any.
    + intros E w id' _. reflexivity.
    + intros E. apply same_elsewhere_trans.
    + intros e last w. apply same_elsewhere_save_then.
      intros w0 id' Hne. simpl. apply lookup_insert_ne. congruence.
    + intros l w _ id' Hne. simpl. apply lookup_insert_ne. congruence.
    + intros last w. apply same_elsewhere_after_set.
Qed.

Lemma balanced_trans id E (w1 w2 w3 : World E) :
  balanced id E w1 w2 → balanced id E w2 w3 → balanced id E w1 w3.
Proof. unfold balanced. lia. Qed.

Lemma balanced_save_then {E A} id (e : E) (k : M E A) (w : World E) :
  (∀ w0, saved (snd (k w0)) = saved w0
         ∧ success_count (counters_of id (snd (k w0)))
           = success_count (counters_of id w0) + 1) →
  balanced id E w (snd ((save e;; k) w)).
Proof.
  intros Hk. unfold bind, balanced.
  destruct (hd None (sink w)) as [err | ] eqn:Hs.
  - rewrite (save_rejected _ _ _ Hs). simpl. unfold counters_of. simpl. lia.
  - rewrite (save_accepted _ _ Hs).
    destruct (Hk (accepted e w)) as [Hsaved Hcount]. cbn beta iota.
    rewrite Hsaved, Hcount, counters_accepted. cbn [saved accepted].
    rewrite length_app, Nat2Z.inj_add. simpl. lia.
Qed.

(** X2. [success_count] counts the envelopes the sink took, no more and no
    less: over any run of any spout, whatever the transport and the sink
    do, it goes up by exactly the number of envelopes saved in that run. *)
Theorem success_count_counts_saved_envelopes {V} (json_loads : string → option V)
    (id : string) :
  six_spouts_keep (balanced id) json_loads id
  ∧ redis_stream_keeps (balanced id) id.
Proof.
  split.
  - apply six_spouts_keep_any.
    + intros E w. unfold balanced. lia.
    + intros E. apply balanced_trans.
    + intros E w. unfold balanced.
      rewrite counters_after_failure, saved_after_failure. simpl. lia.
    + intros E e w. apply balanced_save_then. intros w0.
      split; [reflexivity | ].
      change (snd (count_success id w0)) with (after_success id w0).
      rewrite counters_after_success. reflexivity.
  - apply redis_stream_keeps_any.
    + intros E w. unfold balanced. lia.
    + intros E. apply balanced_trans.
    + intros e last w. apply balanced_save_then. intros w0.
      destruct (RedisStream_account_extends id last w0) as (cs & w2 & Hacc & _ & Hcs & _).
      split; [reflexivity | ].
      unfold counters_of. simpl. rewrite lookup_insert_eq. simpl.
      destruct (store w0 !! id); reflexivity.
    + intros l w [Hs _]. unfold balanced, counters_of at 1. simpl.
      rewrite lookup_insert_eq. simpl. lia.
    + intros last w. unfold balanced, counters_of at 1. simpl.
      rewrite lookup_insert_eq. simpl. unfold counters_of.
      destruct (store w !! id); simpl; lia.
Qed.

(** X3. Only the Redis Streams spout keeps a cursor: the other six never
    change the [last_id] read under their id, so what they store has no
    position to resume from. *)
Theorem six_spouts_never_move_a_cursor {V} (json_loads : string → option V)
    (id : string) :
  six_spouts_keep (keeps_cursor id) json_loads id.
Proof.
  apply six_spouts_keep_any.
  - intros E w. reflexivity.
  - intros E w1 w2 w3. unfold keeps_cursor. congruence.
  - intros E w. unfold keeps_cursor. rewrite counters_after_failure. reflexivity.
  - intros E e w. unfold keeps_cursor, bind.
    destruct (hd None (sink w)) as [err | ] eqn:Hs.
    + rewrite (save_rejected _ _ _ Hs). reflexivity.
    + rewrite (save_accepted _ _ Hs). cbn beta iota.
      change (snd (count_success id (accepted e w)))
        with (after_success id (accepted e w)).
      rewrite counters_after_success. reflexivity.
Qed.

(** ** Kafka *)

Lemma total_after_failure {E} id (w : World E) :
  total_count id (after_failure id w) = total_count id w + 1.
Proof. unfold total_count. rewrite counters_after_failure. simpl. lia. Qed.

Lemma total_after_success {E} id (w : World E) :
  total_count id (after_success id w) = total_count id w + 1.
Proof. unfold total_count. rewrite counters_after_success. simpl. lia. Qed.

Lemma Kafka_iteration_total {V} (json_loads : string → option V) id p (w : World V) :
  ∃ w1, Kafka.iteration json_loads id p w = (Ok tt, w1)
        ∧ total_count id w1
          = total_count id w + (if Kafka_counted p then 1 else 0).
Proof.
  destruct p as [ | code partition | [value | ] | e].
  - exists w. split; [reflexivity | simpl; lia].
  - exists w. split; [ | simpl; lia].
    unfold Kafka.iteration, try_except.
    destruct (Z.eqb code Kafka._PARTITION_EOF); reflexivity.
  - eexists. split; [apply (decode_save_count json_loads id (λ d : V, d)) | ].
    cbn [Kafka_counted].
    destruct (json_loads value); [destruct (hd None (sink w)) | ];
      rewrite ?total_after_failure, ?total_after_success; reflexivity.
  - eexists. split; [reflexivity | ]. apply (total_after_failure id w).
  - eexists. split; [reflexivity | ]. apply (total_after_failure id w).
Qed.


(** X5. The consumer is configured with the servers, the group and
    ["auto.offset.reset" = "earliest"] in every case; the four SASL
    settings are there exactly when both the username and the password are
    given and not empty, and are absent altogether otherwise. *)
Theorem Kafka_config_sasl_only_with_both (bootstrap_servers group_id : string)
    (username password : option string) :
  KafkaConfig.config bootstrap_servers group_id username password !! "bootstrap.servers"
  = Some bootstrap_servers
  ∧ KafkaConfig.config bootstrap_servers group_id username password !! "group.id"
    = Some group_id
  ∧ KafkaConfig.config bootstrap_servers group_id username password !! "auto.offset.reset"
    = Some "earliest"
  ∧ KafkaConfig.config bootstrap_servers group_id username password !! "security.protocol"
    = (if KafkaConfig.truthy username && KafkaConfig.truthy password
       then Some "SASL_PLAINTEXT" else None)
  ∧ KafkaConfig.config bootstrap_servers group_id username password !! "sasl.mechanisms"
    = (if KafkaConfig.truthy username && KafkaConfig.truthy password
       then Some "PLAIN" else None)
  ∧ KafkaConfig.config bootstrap_servers group_id username password !! "sasl.username"
    = (if KafkaConfig.truthy username && KafkaConfig.truthy password
       then username else None)
  ∧ KafkaConfig.config bootstrap_servers group_id username password !! "sasl.password"
    = (if KafkaConfig.truthy username && KafkaConfig.truthy password
       then password else None).
Proof.
  destruct username as [[ | c u] | ], password as [[ | c' p] | ];
    repeat apply conj; reflexivity.
Qed.

(** ** RabbitMQ *)

Lemma RabbitMQ_callback_returns {V} (json_loads : string → option V) id d w :
  fst (RabbitMQ._callback json_loads id d w) = Ok tt.
Proof.
  unfold RabbitMQ._callback, try_except.
  destruct (bind _ _ w) as [[[] | e] w1]; reflexivity.
Qed.

Lemma RabbitMQ_consuming_outcome {V} (json_loads : string → option V) id evs w :
  fst (fst (while_true (RabbitMQ.dispatch json_loads id) evs w)) = Blocked
  ∨ ∃ e, fst (fst (while_true (RabbitMQ.dispatch json_loads id) evs w)) = Raised e.
Proof.
  revert w. induction evs as [ | [d | e] evs IH]; intros w; simpl.
  - left. reflexivity.
  - pose proof (RabbitMQ_callback_returns json_loads id d w) as H.
    destruct (RabbitMQ._callback json_loads id d w) as [[[] | e] w1];
      [apply IH | discriminate H].
  - right. exists e. reflexivity.
Qed.


(** X7. A delivery whose properties carry no headers is never forwarded, even
    when its body decodes: [dict(None)] raises, the callback counts one
    failure and saves nothing. *)
Theorem RabbitMQ_delivery_without_headers_fails {V} (json_loads : string → option V)
    (id : string) (d : RabbitMQ.delivery) (w : World (RabbitMQ.Envelope (V:=V))) :
  RabbitMQ.headers d = None →
  RabbitMQ._callback json_loads id d w = (Ok tt, after_failure id w).
Proof.
  intros H. unfold RabbitMQ._callback, try_except, bind, loads, RabbitMQ.dict_of.
  rewrite H. destruct (json_loads (RabbitMQ.body d)); reflexivity.
Qed.

Lemma RabbitMQ_delivery_without_headers_witness :
  RabbitMQ._callback int_loads "rabbit-1" (RabbitMQ.mkDelivery "1" "orders" None)
    (world0 ∅ [])
  = (Ok tt, after_failure "rabbit-1" (world0 ∅ [])).
Proof. apply RabbitMQ_delivery_without_headers_fails. reflexivity. Defined.

(** ** Redis Pub/Sub *)

(** X8. Items of the subscription that are no ["message"] (the confirmation
    of [subscribe], for one) change nothing, however many there are: no
    write, no save, and the loop waits for the next item. *)
Theorem RedisPubSub_other_items_change_nothing {V} (json_loads : string → option V)
    (id channel : string) (items : list RedisPubSub.item)
    (w : World (RedisPubSub.Envelope (V:=V))) :
  forallb is_not_message items = true →
  RedisPubSub.listen json_loads id channel (Ok tt) items w = (Blocked, [], w).
Proof.
  revert w. induction items as [ | [type_ data_ | e] items IH]; intros w; simpl;
    [reflexivity | | discriminate].
  intros H. apply andb_prop in H as [Ht Hrest].
  unfold RedisPubSub.handle, try_except.
  apply Bool.negb_true_iff in Ht. rewrite Ht. apply IH, Hrest.
Qed.

Lemma RedisPubSub_other_items_witness :
  RedisPubSub.listen int_loads "pubsub-1" "news" (Ok tt)
    [RedisPubSub.Yields "subscribe" "1"; RedisPubSub.Yields "pmessage" "7"]
    (world0 ∅ [])
  = (Blocked, [], world0 ∅ []).
Proof. apply RedisPubSub_other_items_change_nothing. reflexivity. Defined.

(** ** Redis Streams *)

Lemma RedisStream_entry_accepted id stream_key msg_id flds rest l w :
  hd None (sink w) = None →
  RedisStream.process id stream_key ((msg_id, flds) :: rest) l w
  = RedisStream.process id stream_key rest
      (RedisStream.mkLocals msg_id
         (set_last_id (Some msg_id)
            (incr_success
               (py_or (store w !! id) (RedisStream.default_with (Some msg_id))))))
      (snd (set_state id
              (set_last_id (Some msg_id)
                 (incr_success
                    (py_or (store w !! id) (RedisStream.default_with (Some msg_id)))))
              (accepted (RedisStream.mkEnvelope flds stream_key msg_id) w))).
Proof.
  intros Hs. cbn [RedisStream.process]. unfold bind.
  rewrite (save_accepted _ _ Hs). reflexivity.
Qed.

Lemma last_cons_default {A} (l : list A) (a d : A) :
  List.last (a :: l) d = List.last l a.
Proof.
  revert a d. induction l as [ | b l IH]; intros a d; [reflexivity | ].
  change (List.last (a :: b :: l) d) with (List.last (b :: l) d).
  rewrite (IH b d), (IH b a). reflexivity.
Qed.

Lemma RedisStream_process_accepted id stream_key messages :
  ∀ m l w,
    accepts_all w = true →
    ∃ cs w',
      RedisStream.process id stream_key (m :: messages) l w
      = (Ok tt, RedisStream.mkLocals (List.last (List.map fst messages) (fst m)) cs, w')
      ∧ store w' !! id = Some cs
      ∧ last_id cs = Some (Some (List.last (List.map fst messages) (fst m)))
      ∧ saved w' = saved w ++ List.map (stream_envelope stream_key) (m :: messages)
      ∧ success_count cs
        = success_count (counters_of id w) + Z.of_nat (length (m :: messages))
      ∧ failure_count cs = failure_count (counters_of id w).
Proof.
  induction messages as [ | m2 messages IH]; intros [msg_id flds] l w Hacc;
    destruct (accepts_all_tail w Hacc) as [Hhd Htl];
    rewrite (RedisStream_entry_accepted _ _ _ _ _ _ _ Hhd).
  - eexists _, _. split; [reflexivity | ]. cbn.
    rewrite lookup_insert_eq. unfold counters_of.
    destruct (store w !! id); repeat apply conj; reflexivity.
  - match goal with
    | |- context [RedisStream.process _ _ _ ?l1 ?w1] =>
        destruct (IH m2 l1 w1 Htl) as (cs & w' & Hrun & Hst & Hlast & Hsaved & Hs & Hf)
    end.
    exists cs, w'. rewrite Hrun, Hst, Hlast, Hsaved, Hs, Hf.
    change (List.map fst (m2 :: messages)) with (fst m2 :: List.map fst messages).
    rewrite last_cons_default.
    unfold counters_of. cbn [store set_state snd saved accepted fst].
    rewrite lookup_insert_eq.
    change (length ((msg_id, flds) :: m2 :: messages)) with (S (length (m2 :: messages))).
    rewrite Nat2Z.inj_succ.
    repeat apply conj; try reflexivity.
    + rewrite <- app_assoc. reflexivity.
    + destruct (store w !! id); simpl; lia.
    + destruct (store w !! id); reflexivity.
Qed.

(** X9. When the sink takes every entry of a reply, a turn of the Redis Streams
    loop saves the entries in the order delivered, each with the stream
    key and its id, adds their number to [success_count], and moves the
    cursor to the id of the last entry, in the local variable and in the
    store alike. *)
Theorem RedisStream_accepted_reply_advances_cursor (id stream_key : string)
    (xread : list (string * RedisStream.xval) → RedisStream.xread_result)
    (result_ : RedisStream.reply) (m : RedisStream.entry)
    (messages : list RedisStream.entry) (l : RedisStream.Locals)
    (w : World RedisStream.Envelope) :
  xread (RedisStream.xread_streams stream_key (RedisStream.l_last_id l))
  = RedisStream.Reply result_ →
  concat (List.map snd result_) = m :: messages →
  accepts_all w = true →
  ∃ cs w',
    RedisStream.iteration id stream_key xread l w
    = (Ok tt, RedisStream.mkLocals (List.last (List.map fst messages) (fst m)) cs, w')
    ∧ store w' !! id = Some cs
    ∧ last_id cs = Some (Some (List.last (List.map fst messages) (fst m)))
    ∧ saved w' = saved w ++ List.map (stream_envelope stream_key) (m :: messages)
    ∧ success_count cs
      = success_count (counters_of id w) + Z.of_nat (length (m :: messages))
    ∧ failure_count cs = failure_count (counters_of id w).
Proof.
  intros Hx Hflat Hacc.
  destruct (RedisStream_process_accepted id stream_key messages m l w Hacc)
    as (cs & w' & Hrun & Hrest).
  exists cs, w'. split; [ | exact Hrest].
  unfold RedisStream.iteration. rewrite Hx, Hflat, Hrun. reflexivity.
Qed.

Lemma RedisStream_accepted_reply_witness :
  ∃ cs w',
    RedisStream.iteration "redis-1" "events" (λ _, RedisStream.Reply
              [("events", [("1500-0", [("a", "1")]); ("2000-0", [("a", "2")])])])
      (RedisStream.mkLocals "1100-0" (mkState 0 0 (Some None))) (world0 ∅ [])
    = (Ok tt, RedisStream.mkLocals "2000-0" cs, w')
    ∧ store w' !! "redis-1" = Some cs
    ∧ last_id cs = Some (Some "2000-0")
    ∧ saved w'
      = [RedisStream.mkEnvelope [("a", "1")] "events" "1500-0";
         RedisStream.mkEnvelope [("a", "2")] "events" "2000-0"]
    ∧ success_count cs = 2
    ∧ failure_count cs = 0.
Proof.
  exact (RedisStream_accepted_reply_advances_cursor "redis-1" "events"
           (λ _, RedisStream.Reply
              [("events", [("1500-0", [("a", "1")]); ("2000-0", [("a", "2")])])])
           [("events", [("1500-0", [("a", "1")]); ("2000-0", [("a", "2")])])]
           ("1500-0", [("a", "1")]) [("2000-0", [("a", "2")])]
           (RedisStream.mkLocals "1100-0" (mkState 0 0 (Some None))) (world0 ∅ [])
           eq_refl eq_refl eq_refl).
Defined.



(** X11. The cursor only ever takes ids that XREAD delivered: after a turn the
    local cursor is the one before, or the id of an entry of the reply to
    that turn's read. *)
Theorem RedisStream_cursor_comes_from_the_reply (id stream_key : string)
    (xread : list (string * RedisStream.xval) → RedisStream.xread_result)
    (l : RedisStream.Locals) (w : World RedisStream.Envelope) :
  RedisStream.l_last_id (snd (fst (RedisStream.iteration id stream_key xread l w)))
  = RedisStream.l_last_id l
  ∨ ∃ result_,
      xread (RedisStream.xread_streams stream_key (RedisStream.l_last_id l))
      = RedisStream.Reply result_
      ∧ In (RedisStream.l_last_id
              (snd (fst (RedisStream.iteration id stream_key xread l w))))
           (List.map fst (concat (List.map snd result_))).
Proof.
  unfold RedisStream.iteration.
  destruct (xread _) as [result_ | e]; [ | left; reflexivity].
  pose proof (RedisStream_process_last_id id stream_key
                (concat (List.map snd result_)) l w) as H.
  destruct (RedisStream.process id stream_key _ l w) as [[[[] | e] l1] w1];
    simpl in *;
    (destruct H as [H | H]; [left; exact H | right; exists result_; auto]).
Qed.


(** ** Kinesis *)

Lemma Kinesis_record_decoded {V} (json_loads : string → option V) id r d rest
    (w : World (Kinesis.Envelope (V:=V))) :
  json_loads (Kinesis.Data r) = Some d →
  hd None (sink w) = None →
  Kinesis.process json_loads id (r :: rest) w
  = Kinesis.process json_loads id rest
      (after_success id (accepted (Kinesis.mkEnvelope d (Kinesis.SequenceNumber r)) w)).
Proof.
  intros Hd Hs. cbn [Kinesis.process]. unfold bind, loads. rewrite Hd.
  unfold ret. rewrite (save_accepted _ _ Hs). reflexivity.
Qed.

Lemma Kinesis_process_good {V} (json_loads : string → option V) id good :
  ∀ (w : World (Kinesis.Envelope (V:=V))),
    forallb (record_decodes json_loads) good = true →
    accepts_all w = true →
    ∃ w1,
      (∀ rest, Kinesis.process json_loads id (good ++ rest) w
               = Kinesis.process json_loads id rest w1)
      ∧ accepts_all w1 = true
      ∧ saved w1 = saved w ++ kinesis_envelopes json_loads good
      ∧ success_count (counters_of id w1)
        = success_count (counters_of id w) + Z.of_nat (length good)
      ∧ failure_count (counters_of id w1) = failure_count (counters_of id w).
Proof.
  induction good as [ | r good IH]; intros w Hgood Hacc.
  - exists w. repeat apply conj.
    + intros rest. reflexivity.
    + exact Hacc.
    + unfold kinesis_envelopes. cbn [omap list_omap]. rewrite app_nil_r. reflexivity.
    + simpl. lia.
    + reflexivity.
  - cbn [forallb] in Hgood. apply andb_prop in Hgood as [Hr Hgood].
    unfold record_decodes, decodes in Hr.
    destruct (json_loads (Kinesis.Data r)) as [d | ] eqn:Hd; [ | discriminate].
    destruct (accepts_all_tail w Hacc) as [Hhd Htl].
    destruct (IH (after_success id
                    (accepted (Kinesis.mkEnvelope d (Kinesis.SequenceNumber r)) w))
                Hgood Htl) as (w1 & Hrun & Hacc1 & Hsaved & Hs & Hf).
    exists w1. repeat apply conj.
    + intros rest. rewrite <- app_comm_cons.
      rewrite (Kinesis_record_decoded json_loads id r d _ w Hd Hhd). apply Hrun.
    + exact Hacc1.
    + rewrite Hsaved, saved_after_success. cbn [saved accepted].
      unfold kinesis_envelopes. cbn [omap list_omap]. rewrite Hd.
      rewrite <- app_assoc. reflexivity.
    + rewrite Hs, counters_after_success, counters_accepted.
      cbn [success_count incr_success length]. rewrite Nat2Z.inj_succ. lia.
    + rewrite Hf, counters_after_success, counters_accepted. reflexivity.
Qed.

(** X13. When every record of a batch decodes and the sink takes every
    envelope, a turn of the Kinesis loop saves the records in order, each
    with its sequence number, adds their number to [success_count] and
    goes on from the next iterator of the response. *)
Theorem Kinesis_accepted_batch_advances_iterator {V} (json_loads : string → option V)
    (id : string) (get_records : option string → Kinesis.get_records_result)
    (shard_iterator : option string) (r : Kinesis.response)
    (w : World (Kinesis.Envelope (V:=V))) :
  get_records shard_iterator = Kinesis.Response r →
  forallb (record_decodes json_loads) (Kinesis.Records r) = true →
  accepts_all w = true →
  ∃ w', Kinesis.iteration json_loads id get_records shard_iterator w
        = (Ok (Kinesis.NextShardIterator r), w')
        ∧ saved w' = saved w ++ kinesis_envelopes json_loads (Kinesis.Records r)
        ∧ success_count (counters_of id w')
          = success_count (counters_of id w) + Z.of_nat (length (Kinesis.Records r))
        ∧ failure_count (counters_of id w') = failure_count (counters_of id w).
Proof.
  intros Hget Hgood Hacc.
  destruct (Kinesis_process_good json_loads id (Kinesis.Records r) w Hgood Hacc)
    as (w1 & Hrun & _ & Hrest).
  exists w1. split; [ | exact Hrest].
  unfold Kinesis.iteration, try_except, bind, Kinesis.call. rewrite Hget.
  unfold ret at 1. specialize (Hrun []). rewrite app_nil_r in Hrun. rewrite Hrun.
  reflexivity.
Qed.

Lemma Kinesis_accepted_batch_witness :
  ∃ w', Kinesis.iteration int_loads "kinesis-1"
          (λ _, Kinesis.Response
                  (Kinesis.mkResponse
                     [Kinesis.mkRecord "1" "seq-1"; Kinesis.mkRecord "2" "seq-2"]
                     (Some "it1")))
          (Some "it0") (world0 ∅ [])
        = (Ok (Some "it1"), w')
        ∧ saved w' = [Kinesis.mkEnvelope 1 "seq-1"; Kinesis.mkEnvelope 2 "seq-2"]
        ∧ success_count (counters_of "kinesis-1" w') = 2
        ∧ failure_count (counters_of "kinesis-1" w') = 0.
Proof.
  exact (Kinesis_accepted_batch_advances_iterator int_loads "kinesis-1"
           (λ _, Kinesis.Response
                   (Kinesis.mkResponse
                      [Kinesis.mkRecord "1" "seq-1"; Kinesis.mkRecord "2" "seq-2"]
                      (Some "it1")))
           (Some "it0") _ (world0 ∅ []) eq_refl eq_refl eq_refl).
Defined.

(** X14. A record that does not decode stops its batch: the records before it
    are saved and counted, one failure is counted, the records after it
    are not looked at, and the iterator stays the one the batch was read
    with, so that the next turn asks for the same batch again. *)
Theorem Kinesis_bad_record_keeps_iterator {V} (json_loads : string → option V)
    (id : string) (get_records : option string → Kinesis.get_records_result)
    (shard_iterator : option string) (r : Kinesis.response)
    (good more : list Kinesis.record) (bad : Kinesis.record)
    (w : World (Kinesis.Envelope (V:=V))) :
  get_records shard_iterator = Kinesis.Response r →
  Kinesis.Records r = good ++ bad :: more →
  forallb (record_decodes json_loads) good = true →
  record_decodes json_loads bad = false →
  accepts_all w = true →
  ∃ w', Kinesis.iteration json_loads id get_records shard_iterator w
        = (Ok shard_iterator, w')
        ∧ saved w' = saved w ++ kinesis_envelopes json_loads good
        ∧ success_count (counters_of id w')
          = success_count (counters_of id w) + Z.of_nat (length good)
        ∧ failure_count (counters_of id w') = failure_count (counters_of id w) + 1.
Proof.
  intros Hget Hrecords Hgood Hbad Hacc.
  destruct (Kinesis_process_good json_loads id good w Hgood Hacc)
    as (w1 & Hrun & _ & Hsaved & Hs & Hf).
  exists (after_failure id w1). repeat apply conj.
  - unfold Kinesis.iteration, try_except, bind, Kinesis.call. rewrite Hget.
    unfold ret at 1. rewrite Hrecords, Hrun.
    cbn [Kinesis.process]. unfold bind, loads.
    unfold record_decodes, decodes in Hbad.
    destruct (json_loads (Kinesis.Data bad)); [discriminate | ]. reflexivity.
  - rewrite saved_after_failure. exact Hsaved.
  - rewrite counters_after_failure. cbn [success_count incr_failure]. exact Hs.
  - rewrite counters_after_failure. cbn [failure_count incr_failure]. lia.
Qed.

Lemma Kinesis_bad_record_witness :
  ∃ w', Kinesis.iteration int_loads "kinesis-1" shard_with_bad_record (Some "it0")
          (world0 ∅ [])
        = (Ok (Some "it0"), w')
        ∧ saved w' = [Kinesis.mkEnvelope 1 "seq-1"]
        ∧ success_count (counters_of "kinesis-1" w') = 1
        ∧ failure_count (counters_of "kinesis-1" w') = 1.
Proof.
  exact (Kinesis_bad_record_keeps_iterator int_loads "kinesis-1" shard_with_bad_record
           (Some "it0") _ [Kinesis.mkRecord "1" "seq-1"] [Kinesis.mkRecord "3" "seq-3"]
           (Kinesis.mkRecord "{bad json" "seq-2") (world0 ∅ [])
           eq_refl eq_refl eq_refl eq_refl eq_refl).
Defined.

(** ** ZeroMQ *)

Lemma same_failures_refl id E (w : World E) : same_failures id E w w.
Proof. reflexivity. Qed.

Lemma same_failures_trans id E (w1 w2 w3 : World E) :
  same_failures id E w1 w2 → same_failures id E w2 w3 → same_failures id E w1 w3.
Proof. unfold same_failures. congruence. Qed.

Lemma ZeroMQ_iteration_same_failures {V} (json_loads : string → option V)
    id topic syntax r :
  preserved (same_failures id) (ZeroMQ.iteration json_loads id topic syntax r).
Proof.
  pose proof (same_failures_refl id) as Hrefl.
  pose proof (same_failures_trans id) as Htrans.
  unfold ZeroMQ.iteration, ZeroMQ.after_topic.
  apply preserved_bind; [exact Htrans | | intros message].
  { destruct r; [apply preserved_ret | apply preserved_raise]; exact Hrefl. }
  apply preserved_bind; [exact Htrans | | intros data].
  { destruct (String.eqb syntax "json"); [ | apply preserved_ret; exact Hrefl].
    destruct (snd (split_once " " message));
      repeat first
        [ apply preserved_ret; exact Hrefl
        | apply preserved_raise; exact Hrefl
        | apply preserved_loads; exact Hrefl
        | apply preserved_bind; [exact Htrans | | intros ?] ]. }
  intros w. unfold bind, same_failures.
  destruct (hd None (sink w)) as [err | ] eqn:Hs.
  - rewrite (save_rejected _ _ _ Hs). reflexivity.
  - rewrite (save_accepted _ _ Hs). cbn beta iota.
    change (snd (count_success id (accepted (ZeroMQ.mkEnvelope data topic syntax) w)))
      with (after_success id (accepted (ZeroMQ.mkEnvelope data topic syntax) w)).
    rewrite counters_after_success. reflexivity.
Qed.

Lemma while_true_outcome {E Ev} (body : Ev → M E unit) evs (w : World E) :
  (fst (fst (while_true body evs w)) = Blocked ∧ snd (fst (while_true body evs w)) = [])
  ∨ ∃ e, fst (fst (while_true body evs w)) = Raised e.
Proof.
  revert w. induction evs as [ | ev evs IH]; intros w; simpl.
  - left. split; reflexivity.
  - destruct (body ev w) as [[[] | e] w1]; [apply IH | right; exists e; reflexivity].
Qed.


(** X16. With a syntax other than ["json"] nothing is decoded: a received
    message the sink takes is saved whole, topic prefix included, and
    counted as a success. *)
Theorem ZeroMQ_other_syntax_forwards_raw {V} (json_loads : string → option V)
    (id topic syntax message : string) (w : World (ZeroMQ.Envelope (V:=V))) :
  syntax ≠ "json" →
  hd None (sink w) = None →
  ZeroMQ.iteration json_loads id topic syntax (ZeroMQ.Received message) w
  = (Ok tt, after_success id (accepted (ZeroMQ.mkEnvelope (inr message) topic syntax) w)).
Proof.
  intros Hsyntax Hs. unfold ZeroMQ.iteration, bind, ret.
  destruct (String.eqb syntax "json") eqn:Heq;
    [apply String.eqb_eq in Heq; contradiction | ].
  rewrite (save_accepted _ _ Hs). reflexivity.
Qed.

Lemma ZeroMQ_other_syntax_witness :
  ZeroMQ.iteration int_loads "zmq-1" "t" "text" (ZeroMQ.Received "t hello") (world0 ∅ [])
  = (Ok tt,
     after_success "zmq-1"
       (accepted (ZeroMQ.mkEnvelope (inr "t hello") "t" "text") (world0 ∅ []))).
Proof.
  apply (ZeroMQ_other_syntax_forwards_raw int_loads); [discriminate | reflexivity].
Defined.

Lemma split_once_no_blank s : no_blank s = true → snd (split_once " " s) = None.
Proof.
  unfold no_blank. induction s as [ | c s IH]; simpl; [reflexivity | ].
  intros H. apply andb_prop in H as [Hc Hs].
  apply Bool.negb_true_iff in Hc. rewrite Hc.
  specialize (IH Hs). destruct (split_once " " s) as [a b]. simpl in *. exact IH.
Qed.

(** X17. With the ["json"] syntax a message without a blank, a bare topic for
    one, ends [listen]: taking what follows the first blank raises, one
    failure is counted, and the messages after it are never received. *)
Theorem ZeroMQ_message_without_blank_ends_listen {V} (json_loads : string → option V)
    (id topic message : string) (rest : list ZeroMQ.recv_result)
    (w : World (ZeroMQ.Envelope (V:=V))) :
  no_blank message = true →
  ZeroMQ.listen json_loads id topic "json" (Some "SUB") (Ok tt)
    (ZeroMQ.Received message :: rest) w
  = (Returned, rest, after_failure id w).
Proof.
  intros H. unfold ZeroMQ.listen. destruct (decide _) as [_ | Hne]; [ | contradiction].
  cbn [while_true]. unfold ZeroMQ.iteration, bind, ret, ZeroMQ.after_topic.
  cbn [String.eqb Ascii.eqb Bool.eqb]. rewrite (split_once_no_blank _ H). reflexivity.
Qed.

Lemma ZeroMQ_message_without_blank_witness :
  ZeroMQ.listen int_loads "zmq-1" "t" "json" (Some "SUB") (Ok tt)
    [ZeroMQ.Received "t"; ZeroMQ.Received "t 2"] (world0 ∅ [])
  = (Returned, [ZeroMQ.Received "t 2"], after_failure "zmq-1" (world0 ∅ [])).
Proof. apply ZeroMQ_message_without_blank_ends_listen. reflexivity. Defined.

(** ** The REST poller, further *)

(** X18. A method that [requests] has no function for is not sent at all: the
    poll counts one failure, whatever the server would have answered. *)
Theorem RESTAPIPoll_unknown_method_counts_failure {V} (id url method : string)
    (headers params : option RESTAPIPoll.dict)
    (answer : RESTAPIPoll.request_result (V:=V)) (w : World RESTAPIPoll.Envelope) :
  known_method method = false →
  RESTAPIPoll.poll_api id url method headers params answer w
  = (Ok tt, after_failure id w).
Proof.
  intros H. unfold known_method in H.
  unfold RESTAPIPoll.poll_api, RESTAPIPoll.request. rewrite H. reflexivity.
Qed.

Lemma RESTAPIPoll_unknown_method_witness :
  RESTAPIPoll.poll_api "rest-1" "http://api" "FETCH" None None
    (RESTAPIPoll.Responds (RESTAPIPoll.mkResponse 200 (Ok 1))) (world0 ∅ [])
  = (Ok tt, after_failure "rest-1" (world0 ∅ [])).
Proof. apply RESTAPIPoll_unknown_method_counts_failure. reflexivity. Defined.

(** X19. With a method of [requests], in any letter case, a poll whose answer
    has a status from 400 to 599 and a poll whose request raises a
    [RequestException] leave the world exactly as it was: nothing is
    saved and neither counter moves. *)
Theorem RESTAPIPoll_http_failures_leave_no_trace {V} (id url method : string)
    (headers params : option RESTAPIPoll.dict) (w : World (RESTAPIPoll.Envelope (V:=V))) :
  known_method method = true →
  (∀ r, 400 ≤ RESTAPIPoll.status_code r < 600 →
        RESTAPIPoll.poll_api id url method headers params (RESTAPIPoll.Responds r) w
        = (Ok tt, w))
  ∧ (∀ what,
       RESTAPIPoll.poll_api id url method headers params
         (RESTAPIPoll.RequestRaises (RequestException what)) w
       = (Ok tt, w)).
Proof.
  intros H. split.
  - intros r Hr. apply poll_api_http_error; assumption.
  - intros what. apply poll_api_request_exception; assumption.
Qed.

Lemma RESTAPIPoll_http_failures_witness :
  RESTAPIPoll.poll_api "rest-1" "http://api" "Post" None None
    (RESTAPIPoll.Responds (RESTAPIPoll.mkResponse 404 (Ok 1)))
    (world0 (<["rest-1" := mkState 3 0 None]> ∅) [])
  = (Ok tt, world0 (<["rest-1" := mkState 3 0 None]> ∅) []).
Proof.
  apply (RESTAPIPoll_http_failures_leave_no_trace (V:=Z) "rest-1" "http://api" "Post"
           None None (world0 (<["rest-1" := mkState 3 0 None]> ∅) []) eq_refl).
  simpl. lia.
Defined.

(** X20. A poll whose answer has a status outside 400 to 599 (a redirect
    included) and a body that decodes, with a sink that takes the save,
    saves one envelope with the body, the url, the method as it was given,
    the headers and the params, and counts one success. *)
Theorem RESTAPIPoll_successful_poll {V} (id url method : string)
    (headers params : option RESTAPIPoll.dict) (r : RESTAPIPoll.response) (d : V)
    (w : World RESTAPIPoll.Envelope) :
  known_method method = true →
  ¬ (400 ≤ RESTAPIPoll.status_code r < 600) →
  RESTAPIPoll.json r = Ok d →
  hd None (sink w) = None →
  RESTAPIPoll.poll_api id url method headers params (RESTAPIPoll.Responds r) w
  = (Ok tt,
     after_success id (accepted (RESTAPIPoll.mkEnvelope d url method headers params) w)).
Proof.
  intros Hm Hr Hj Hs. unfold known_method in Hm.
  unfold RESTAPIPoll.poll_api, RESTAPIPoll.request. rewrite Hm.
  unfold ret at 1, try_except, bind, RESTAPIPoll.raise_for_status.
  destruct ((400 <=? RESTAPIPoll.status_code r)
            && (RESTAPIPoll.status_code r <? 600))%bool eqn:Hrange.
  { apply andb_prop in Hrange as [H1 H2].
    apply Z.leb_le in H1. apply Z.ltb_lt in H2. lia. }
  unfold ret, lift. rewrite Hj. rewrite (save_accepted _ _ Hs). reflexivity.
Qed.

Lemma RESTAPIPoll_successful_poll_witness :
  RESTAPIPoll.poll_api "rest-1" "http://api" "GET" None None
    (RESTAPIPoll.Responds (RESTAPIPoll.mkResponse 302 (Ok 5))) (world0 ∅ [])
  = (Ok tt,
     after_success "rest-1"
       (accepted (RESTAPIPoll.mkEnvelope 5 "http://api" "GET" None None) (world0 ∅ []))).
Proof.
  apply RESTAPIPoll_successful_poll; [reflexivity | simpl; lia | reflexivity | reflexivity].
Defined.

Lemma RESTAPIPoll_poll_api_returns {V} id url method headers params
    (a : RESTAPIPoll.request_result (V:=V)) w :
  raises_http_error a = false →
  fst (RESTAPIPoll.poll_api id url method headers params a w) = Ok tt.
Proof.
  intros Ha. unfold RESTAPIPoll.poll_api, RESTAPIPoll.request.
  destruct (existsb _ _); [ | reflexivity].
  destruct a as [r | e].
  - unfold ret at 1, try_except.
    destruct (bind _ _ w) as [[[] | e] w1]; [reflexivity | ].
    destruct e; reflexivity.
  - destruct e; try reflexivity. discriminate Ha.
Qed.




